(** * IPS patches: a model of [ips_patch.py] and its properties

    The development follows the Python module: the integer and byte-string
    primitives the module relies on ([int.from_bytes], [int.to_bytes], slices
    and slice assignment on [bytes] / [bytearray] / [memoryview]), then the
    class [IPSPatchRecord], then the class [IPSPatch].  Python integers are
    modelled by [Z], byte strings by lists of [byte], exceptions by the
    [Raise] constructor of a result type. *)

From Stdlib Require Import String Strings.Byte.
From Stdlib Require Import ZArith List Lia Bool Sorted.
Import ListNotations.
Local Open Scope Z_scope.

(* ================================================================== *)
(** ** Python primitives *)

Module Py.

#[warnings="-notation-for-abbreviation"]
Notation bytes := (list byte) (only parsing).

Inductive exn : Type :=
| ValueError (msg : string)
| OverflowError (msg : string).

(** The outcome of a call: a value, a raised exception, or (for the two
    [while] loops only) the exhaustion of the iteration budget of the
    model. *)
Inductive result (A : Type) : Type :=
| Ok (a : A)
| Raise (e : exn)
| OutOfFuel.
Arguments Ok {A} a.
Arguments Raise {A} e.
Arguments OutOfFuel {A}.

Definition bind {A B} (m : result A) (k : A -> result B) : result B :=
  match m with
  | Ok a => k a
  | Raise e => Raise e
  | OutOfFuel => OutOfFuel
  end.

(** [len(x)] *)
Definition len {A} (l : list A) : Z := Z.of_nat (length l).

(** Normalisation of one bound of a slice on a sequence of length [n]:
    a negative bound counts from the end, and the result is clipped to
    [0 .. n]. *)
Definition clamp (n i : Z) : Z :=
  if i <? 0 then Z.max 0 (i + n) else Z.min i n.

(** [l[i:j]] *)
Definition slice {A} (l : list A) (i j : Z) : list A :=
  let a := clamp (len l) i in
  let b := clamp (len l) j in
  firstn (Z.to_nat (b - a)) (skipn (Z.to_nat a) l).

(** [l[i:]] *)
Definition slice_from {A} (l : list A) (i : Z) : list A :=
  slice l i (len l).

(** [l[i:j] = v] on a [bytearray]: the (possibly empty) slice is replaced
    by [v], whatever the length of [v]. *)
Definition set_slice {A} (l : list A) (i j : Z) (v : list A) : list A :=
  let a := clamp (len l) i in
  let b := Z.max a (clamp (len l) j) in
  firstn (Z.to_nat a) l ++ v ++ skipn (Z.to_nat b) l.

(** [b * n] *)
Definition mul (b : bytes) (n : Z) : bytes :=
  concat (repeat b (Z.to_nat n)).

Definition int_of_byte (b : byte) : Z := Z.of_N (Byte.to_N b).

Definition byte_of_int (n : Z) : byte :=
  match Byte.of_N (Z.to_N n) with
  | Some b => b
  | None => x00
  end.

(** [int.from_bytes(b, 'big')] *)
Definition int_from_bytes (b : bytes) : Z :=
  fold_left (fun acc x => acc * 256 + int_of_byte x) b 0.

Fixpoint big_endian (k : nat) (n : Z) : bytes :=
  match k with
  | O => []
  | S k' => big_endian k' (n / 256) ++ [byte_of_int (n mod 256)]
  end.

(** [n.to_bytes(length, 'big')] *)
Definition int_to_bytes (n : Z) (length : Z) : result bytes :=
  if n <? 0 then
    Raise (OverflowError "can't convert negative int to unsigned")
  else if 256 ^ length <=? n then
    Raise (OverflowError "int too big to convert")
  else Ok (big_endian (Z.to_nat length) n).

(** [a == b] on byte strings *)
Fixpoint bytes_eqb (a b : bytes) : bool :=
  match a, b with
  | [], [] => true
  | x :: a', y :: b' => Byte.eqb x y && bytes_eqb a' b'
  | _, _ => false
  end.

(** [operator.eq] and [operator.ne] on the items of a [memoryview] *)
Definition operator_eq (a b : byte) : bool := Byte.eqb a b.
Definition operator_ne (a b : byte) : bool := negb (Byte.eqb a b).

End Py.

Import Py.

Declare Scope py_scope.
Notation "x <- m ;; k" := (bind m (fun x => k))
  (at level 61, m at next level, right associativity) : py_scope.
Local Open Scope py_scope.

(* ================================================================== *)
(** ** Module constants *)

Definition OFFSET_SIZE : Z := 3.
Definition OFFSET_BITS : Z := OFFSET_SIZE * 8.
Definition OFFSET_MAX : Z := 2 ^ OFFSET_BITS - 1.
Definition SIZE_SIZE : Z := 2.
Definition SIZE_BITS : Z := SIZE_SIZE * 8.
Definition SIZE_MAX : Z := 2 ^ SIZE_BITS - 1.
Definition RLE_SIZE_SIZE : Z := 2.
Definition RLE_SIZE_BITS : Z := RLE_SIZE_SIZE * 8.
Definition RLE_SIZE_MAX : Z := 2 ^ RLE_SIZE_BITS - 1.
Definition PATCH : bytes := list_byte_of_string "PATCH".
Definition EOF : bytes := list_byte_of_string "EOF".

(* ================================================================== *)
(** ** class IPSPatchRecord *)

Module IPSPatchRecord.

Record t : Type := Build { offset : Z; data : bytes; rle_size : Z }.

(** [__init__]: the three range checks, in the order of the source. *)
Definition __init__ (offset : Z) (data : bytes) (rle_size : Z) : result t :=
  if negb ((0 <=? offset) && (offset <=? OFFSET_MAX)) then
    Raise (ValueError "Offset must be a 24 bit unsigned value.")
  else if len data >? SIZE_MAX then
    Raise (ValueError "Record data size should fit in 16 bits.")
  else if negb ((0 <=? rle_size) && (rle_size <=? RLE_SIZE_MAX)) then
    Raise (ValueError "RLE size must be a 16 bit unsigned value.")
  else Ok (Build offset data rle_size).

Definition is_rle (self : t) : bool := rle_size self >? 0.

Definition size (self : t) : Z :=
  if is_rle self then 0 else len (data self).

Definition applied_size (self : t) : Z :=
  if is_rle self then rle_size self else size self.

Definition from_bytes (data : bytes) : result t :=
  let i := 0 in
  let offset := int_from_bytes (slice data i (i + OFFSET_SIZE)) in
  let i := i + OFFSET_SIZE in
  let size := int_from_bytes (slice data i (i + SIZE_SIZE)) in
  let i := i + SIZE_SIZE in
  if size >? 0 then
    __init__ offset (slice data i (i + size)) 0
  else
    let rle_size := int_from_bytes (slice data i (i + RLE_SIZE_SIZE)) in
    let i := i + RLE_SIZE_SIZE in
    __init__ offset (slice data i (i + 1)) rle_size.

Definition to_bytes (self : t) : result bytes :=
  o <- int_to_bytes (offset self) OFFSET_SIZE ;;
  if is_rle self then
    r <- int_to_bytes (rle_size self) RLE_SIZE_SIZE ;;
    Ok (o ++ mul [x00] SIZE_SIZE ++ r
          ++ mul (slice (data self) 0 1) (rle_size self))
  else
    s <- int_to_bytes (len (data self)) SIZE_SIZE ;;
    Ok (o ++ s ++ data self).

(** [apply]: the new contents of the [bytearray] that the call mutates. *)
Definition apply (self : t) (data : bytes) : bytes :=
  let i := offset self in
  if is_rle self then
    set_slice data i (i + rle_size self)
              (mul (slice (IPSPatchRecord.data self) 0 1) (rle_size self))
  else
    set_slice data i (i + size self) (IPSPatchRecord.data self).

Definition __len__ (self : t) : Z :=
  if is_rle self then OFFSET_SIZE + SIZE_SIZE + RLE_SIZE_SIZE + 1
  else OFFSET_SIZE + SIZE_SIZE + len (data self).

End IPSPatchRecord.

(* ================================================================== *)
(** ** class IPSPatch *)

Module IPSPatch.

Record t : Type := Build { records : list IPSPatchRecord.t }.

Definition __init__ : t := Build [].

(** The [while] loop of [from_bytes], with cursor [i] and the records
    appended so far.  One unit of [fuel] is spent per decoded record. *)
Fixpoint from_bytes_loop (fuel : nat) (data : bytes) (i : Z)
         (records : list IPSPatchRecord.t) : result (list IPSPatchRecord.t) :=
  if bytes_eqb (slice data i (i + len EOF)) EOF then Ok records
  else
    let view := slice_from data i in
    if len view =? 0 then Raise (ValueError "Invalid patch format.")
    else
      match fuel with
      | O => OutOfFuel
      | S fuel' =>
          r <- IPSPatchRecord.from_bytes view ;;
          from_bytes_loop fuel' data (i + IPSPatchRecord.__len__ r)
                          (records ++ [r])
      end.

Definition from_bytes (data : bytes) : result t :=
  let i := 0 in
  if negb (bytes_eqb (slice data i (i + len PATCH)) PATCH) then
    Raise (ValueError "Invalid patch format.")
  else
    let i := i + len PATCH in
    records <- from_bytes_loop (length data) data i [] ;;
    Ok (Build records).

(** The [for] loop of [to_bytes]. *)
Fixpoint to_bytes_loop (records : list IPSPatchRecord.t) (data : bytes)
  : result bytes :=
  match records with
  | [] => Ok data
  | record :: records' =>
      b <- IPSPatchRecord.to_bytes record ;;
      to_bytes_loop records' (data ++ b)
  end.

Definition to_bytes (self : t) : result bytes :=
  data <- to_bytes_loop (records self) PATCH ;;
  Ok (data ++ EOF).

(** [enumerate(l, start)] *)
Fixpoint enumerate {A} (l : list A) (start : Z) : list (Z * A) :=
  match l with
  | [] => []
  | x :: l' => (start, x) :: enumerate l' (start + 1)
  end.

(** The local function [find_first] of [from_diff]; [sview] and [dview]
    are the two buffers it closes over. *)
Definition find_first (sview dview : bytes) (start end_ : Z)
           (comp : byte -> byte -> bool) : Z :=
  hd end_
     (map fst
          (filter (fun x => comp (fst (snd x)) (snd (snd x)))
                  (enumerate (combine (slice sview start end_)
                                      (slice dview start end_)) start))).

(** First [while] loop of [from_diff]: the mismatching runs inside
    [src]. *)
Fixpoint from_diff_loop1 (fuel : nat) (src dest : bytes) (i diff_start : Z)
         (records : list IPSPatchRecord.t)
  : result (Z * Z * list IPSPatchRecord.t) :=
  if i <? len src then
    match fuel with
    | O => OutOfFuel
    | S fuel' =>
        let diff_end :=
          find_first src dest i (Z.min (len src) (i + SIZE_MAX)) operator_eq in
        let i := diff_end in
        r <- IPSPatchRecord.__init__ diff_start
               (slice dest diff_start diff_end) 0 ;;
        let diff_start := find_first src dest i (len src) operator_ne in
        let i := diff_start in
        from_diff_loop1 fuel' src dest i diff_start (records ++ [r])
    end
  else Ok (i, diff_start, records).

(** Second [while] loop of [from_diff]: the tail of [dest]. *)
Fixpoint from_diff_loop2 (fuel : nat) (dest : bytes) (i diff_start : Z)
         (records : list IPSPatchRecord.t)
  : result (list IPSPatchRecord.t) :=
  if i <? len dest then
    match fuel with
    | O => OutOfFuel
    | S fuel' =>
        let diff_end := Z.min (len dest) (i + SIZE_MAX) in
        let i := diff_end in
        r <- IPSPatchRecord.__init__ diff_start
               (slice dest diff_start diff_end) 0 ;;
        let diff_start := i in
        from_diff_loop2 fuel' dest i diff_start (records ++ [r])
    end
  else Ok records.

Definition from_diff (src dest : bytes) : result t :=
  let diff_start := find_first src dest 0 (len src) operator_ne in
  let i := diff_start in
  st <- from_diff_loop1 (length src) src dest i diff_start [] ;;
  let '(i, diff_start, records) := st in
  records <- from_diff_loop2 (length dest) dest i diff_start records ;;
  Ok (Build records).

(** The [for] loop of [apply]: every record applied in turn to the
    working buffer. *)
Definition apply_loop (records : list IPSPatchRecord.t) (data : bytes)
  : bytes :=
  fold_left (fun data record => IPSPatchRecord.apply record data) records data.

(** [apply]: the pair of the caller's buffer after the call and the value
    returned ([None] when [mutate] is true). *)
Definition apply (self : t) (data : bytes) (mutate : bool)
  : bytes * option bytes :=
  if mutate then (apply_loop (records self) data, None)
  else (data, Some (apply_loop (records self) data)).

End IPSPatch.

(* ================================================================== *)
(** ** Vocabulary of the properties *)

(** A record that [IPSPatchRecord.__init__] builds: its fields pass the
    three range checks. *)
Definition constructible (r : IPSPatchRecord.t) : Prop :=
  IPSPatchRecord.__init__ (IPSPatchRecord.offset r) (IPSPatchRecord.data r)
                          (IPSPatchRecord.rle_size r) = Ok r.

(** A valid record: a literal record with non-empty data, or an RLE record
    with a one-byte fill value. *)
Definition valid_record (r : IPSPatchRecord.t) : Prop :=
  constructible r /\
  if IPSPatchRecord.is_rle r then len (IPSPatchRecord.data r) = 1
  else 0 < len (IPSPatchRecord.data r).

(** The bytes a record writes when applied: the literal data, or
    [rle_size] copies of the fill byte. *)
Definition payload (r : IPSPatchRecord.t) : bytes :=
  if IPSPatchRecord.is_rle r
  then mul (slice (IPSPatchRecord.data r) 0 1) (IPSPatchRecord.rle_size r)
  else IPSPatchRecord.data r.

(** The exception of [IPSPatch.from_bytes]. *)
Definition invalid_format : exn := ValueError "Invalid patch format.".

(** The offset whose three bytes are those of the end marker. *)
Definition EOF_offset : Z := int_from_bytes EOF.

(** The records for which the container round trip is stated: valid, not
    at the offset that reads as the end marker, and encoded on as many
    bytes as [__len__] reports (an RLE record is, when its run has length
    one). *)
Definition framed (r : IPSPatchRecord.t) : Prop :=
  valid_record r /\
  IPSPatchRecord.offset r <> EOF_offset /\
  (IPSPatchRecord.is_rle r = true -> IPSPatchRecord.rle_size r = 1).

(** The number of bytes a span announces for its first record: five for
    the header, then the size field, or the three bytes of an RLE tail. *)
Definition declared_length (span : bytes) : Z :=
  let header := OFFSET_SIZE + SIZE_SIZE in
  if len span <? header then header
  else
    let size := int_from_bytes (slice span OFFSET_SIZE header) in
    if size >? 0 then header + size else header + RLE_SIZE_SIZE + 1.

Definition truncated (span : bytes) : Prop := len span < declared_length span.

(** End of the range a record overwrites. *)
Definition range_end (r : IPSPatchRecord.t) : Z :=
  IPSPatchRecord.offset r + IPSPatchRecord.applied_size r.

Definition increasing_offsets (rs : list IPSPatchRecord.t) : Prop :=
  StronglySorted
    (fun a b => IPSPatchRecord.offset a < IPSPatchRecord.offset b) rs.

Definition ranges_disjoint (a b : IPSPatchRecord.t) : Prop :=
  range_end a <= IPSPatchRecord.offset b \/
  range_end b <= IPSPatchRecord.offset a.

Definition non_overlapping (rs : list IPSPatchRecord.t) : Prop :=
  ForallOrdPairs ranges_disjoint rs.

(** [a] starts before [b] and ends at or before the start of [b]. *)
Definition ordered_before (a b : IPSPatchRecord.t) : Prop :=
  IPSPatchRecord.offset a < IPSPatchRecord.offset b /\
  range_end a <= IPSPatchRecord.offset b.

(** What the diff loops maintain: the records emitted so far are ordered,
    and all of them lie before the cursor [i]. *)
Definition emitted_before (i : Z) (rs : list IPSPatchRecord.t) : Prop :=
  StronglySorted ordered_before rs /\
  Forall (fun a => IPSPatchRecord.offset a < i /\ range_end a <= i) rs.

(** Both buffers have a byte at position [i], and the two bytes differ. *)
Definition differ_at (src dest : bytes) (i : Z) : Prop :=
  exists a b,
    nth_error src (Z.to_nat i) = Some a /\
    nth_error dest (Z.to_nat i) = Some b /\
    a <> b.

(* ================================================================== *)
(** ** Files: [IPSPatch.from_file], [IPSPatch.to_file], module [patcher] *)

(** What the program does not decide about the files it is given: the
    file that a path denotes, if it denotes one (two paths can denote one
    file; a path through a missing directory denotes none), and the files
    that may be opened for reading and for writing.  An [open] that the
    system refuses raises [OSError] ([FileNotFoundError] and
    [PermissionError] are such errors); once a file is open, reading it
    and writing it go through. *)
Module Os.

Record system : Type :=
  { resolve : string -> option string;
    readable : string -> bool;
    writable : string -> bool }.

(** The contents of the files that exist, by the file (not by the
    path). *)
Definition files : Type := string -> option bytes.

Definition store (fs : files) (file : string) (content : bytes) : files :=
  fun f => if String.eqb f file then Some content else fs f.

(** [open(path, 'rb')]: the file, or [None] where [open] raises. *)
Definition open_rb (sys : system) (fs : files) (path : string)
  : option string :=
  match resolve sys path with
  | Some file =>
      match fs file with
      | Some _ => if readable sys file then Some file else None
      | None => None
      end
  | None => None
  end.

(** [open(path, 'wb')]: the file, created or emptied, or [None] where
    [open] raises. *)
Definition open_wb (sys : system) (fs : files) (path : string)
  : option (string * files) :=
  match resolve sys path with
  | Some file =>
      if writable sys file then Some (file, store fs file []) else None
  | None => None
  end.

(** [file.read()] on a file opened for reading: the bytes the file holds
    at the time of the call. *)
Definition read (fs : files) (file : string) : bytes :=
  match fs file with
  | Some content => content
  | None => []
  end.

Inductive raised : Type :=
| OSError (path : string)
| TypeError (msg : string)
| Propagated (e : exn).

(** The outcome of a call that works on files: what it returns or raises,
    and the files as it leaves them. *)
Inductive outcome (A : Type) : Type :=
| Returns (a : A) (fs : files)
| Raises (e : raised) (fs : files)
| Unfinished.
Arguments Returns {A} a fs.
Arguments Raises {A} e fs.
Arguments Unfinished {A}.

(** A call of the codec, made while the files are [fs]. *)
Definition call {A} (r : result A) (fs : files) : outcome A :=
  match r with
  | Ok a => Returns a fs
  | Raise e => Raises (Propagated e) fs
  | OutOfFuel => Unfinished
  end.

Definition then_ {A B} (m : outcome A) (k : A -> files -> outcome B)
  : outcome B :=
  match m with
  | Returns a fs => k a fs
  | Raises e fs => Raises e fs
  | Unfinished => Unfinished
  end.

End Os.

Module IPSPatchFiles.
Import Os.

(** [IPSPatch.from_file] *)
Definition from_file (sys : system) (filename : string) (fs : files)
  : outcome IPSPatch.t :=
  match open_rb sys fs filename with
  | None => Raises (OSError filename) fs
  | Some file => call (IPSPatch.from_bytes (read fs file)) fs
  end.

(** [IPSPatch.to_file]: the file is opened, hence emptied, before
    [self.to_bytes()] is evaluated. *)
Definition to_file (sys : system) (self : IPSPatch.t) (filename : string)
           (fs : files) : outcome unit :=
  match open_wb sys fs filename with
  | None => Raises (OSError filename) fs
  | Some (file, fs) =>
      then_ (call (IPSPatch.to_bytes self) fs)
            (fun data fs => Returns tt (store fs file data))
  end.

End IPSPatchFiles.

Module patcher.
Import Os.

(** The namespace that [parse_args] returns, for each of the two
    subcommands. *)
Inductive args : Type :=
| apply_args (patch_file in_file out_file : string)
| create_args (original_file modified_file out_file : string).

(** [apply(args)]: both files are opened before the patch is read, and
    the input is read after that. *)
Definition apply (sys : system) (patch_file in_file out_file : string)
           (fs : files) : outcome unit :=
  match open_rb sys fs in_file with
  | None => Raises (OSError in_file) fs
  | Some input =>
      match open_wb sys fs out_file with
      | None => Raises (OSError out_file) fs
      | Some (output, fs) =>
          then_ (IPSPatchFiles.from_file sys patch_file fs)
                (fun patch fs =>
                   let data := read fs input in
                   match snd (IPSPatch.apply patch data false) with
                   | Some patched => Returns tt (store fs output patched)
                   | None =>
                       Raises (TypeError "a bytes-like object is required")
                              fs
                   end)
      end
  end.

(** [create(args)] *)
Definition create (sys : system)
           (original_file modified_file out_file : string)
           (fs : files) : outcome unit :=
  match open_rb sys fs original_file with
  | None => Raises (OSError original_file) fs
  | Some original =>
      match open_rb sys fs modified_file with
      | None => Raises (OSError modified_file) fs
      | Some modified =>
          let original_data := read fs original in
          let modified_data := read fs modified in
          then_ (call (IPSPatch.from_diff original_data modified_data) fs)
                (fun patch fs =>
                   IPSPatchFiles.to_file sys patch out_file fs)
      end
  end.

(** [args.out_file] *)
Definition out_file_of (a : args) : string :=
  match a with
  | apply_args _ _ out_file => out_file
  | create_args _ _ out_file => out_file
  end.

(** [main], from the parsed arguments on: the dispatch on
    [args.command]. *)
Definition main (sys : system) (a : args) (fs : files) : outcome unit :=
  match a with
  | apply_args patch_file in_file out_file =>
      apply sys patch_file in_file out_file fs
  | create_args original_file modified_file out_file =>
      create sys original_file modified_file out_file fs
  end.

End patcher.

(* ================================================================== *)
(** ** Further vocabulary *)

(** The bytes the decoding loop steps over for a list of records. *)
Definition total_len (rs : list IPSPatchRecord.t) : Z :=
  fold_right (fun r n => IPSPatchRecord.__len__ r + n) 0 rs.

(** The states that the loop of [IPSPatch.from_bytes] goes through on a
    buffer: it starts behind the header with no record; from a cursor
    where the end marker does not stand and bytes remain, it decodes a
    record [r] from the rest of the buffer, appends it, and moves on by
    [len(r)]. *)
Inductive cursor_at (data : bytes) : Z -> list IPSPatchRecord.t -> Prop :=
| cursor_start : cursor_at data (len PATCH) []
| cursor_step (i : Z) (acc : list IPSPatchRecord.t) (r : IPSPatchRecord.t) :
    cursor_at data i acc ->
    slice data i (i + len EOF) <> EOF ->
    len (slice_from data i) <> 0 ->
    IPSPatchRecord.from_bytes (slice_from data i) = Ok r ->
    cursor_at data (i + IPSPatchRecord.__len__ r) (acc ++ [r]).

(** The length that a span must have for its first record to be whole. *)
Definition complete (span : bytes) : Prop := declared_length span <= len span.

(** A literal record as [from_diff] emits them. *)
Definition literal_chunk (dest : bytes) (r : IPSPatchRecord.t) : Prop :=
  constructible r /\
  IPSPatchRecord.rle_size r = 0 /\
  0 < len (IPSPatchRecord.data r) <= SIZE_MAX /\
  IPSPatchRecord.data r
  = slice dest (IPSPatchRecord.offset r) (range_end r) /\
  range_end r <= len dest.

(* ================================================================== *)
(** * Facts about the Python primitives *)

Module PyFacts.

Lemma len_nonneg {A} (l : list A) : 0 <= len l.
Proof. unfold len; lia. Qed.

Lemma len_nil {A} : len (@nil A) = 0.
Proof. reflexivity. Qed.

Lemma len_app {A} (a b : list A) : len (a ++ b) = len a + len b.
Proof. unfold len; rewrite length_app; lia. Qed.

Lemma len_zero_nil {A} (l : list A) : len l = 0 -> l = [].
Proof. destruct l; [reflexivity | unfold len; simpl; lia]. Qed.

Lemma clamp_nonneg (n i : Z) : 0 <= n -> 0 <= i -> clamp n i = Z.min i n.
Proof.
  intros Hn Hi; unfold clamp.
  destruct (i <? 0) eqn:E; [apply Z.ltb_lt in E; lia | reflexivity].
Qed.

(** On non-negative bounds a slice is a [firstn] of a [skipn]; the
    clipping to the length of the list is absorbed by both. *)
Lemma slice_nonneg {A} (l : list A) (i j : Z) :
  0 <= i -> 0 <= j ->
  slice l i j = firstn (Z.to_nat (j - i)) (skipn (Z.to_nat i) l).
Proof.
  intros Hi Hj; unfold slice.
  rewrite !clamp_nonneg by (auto using len_nonneg).
  unfold len.
  destruct (Z_lt_le_dec i (Z.of_nat (length l))) as [Hlt | Hge].
  - replace (Z.to_nat (Z.min i (Z.of_nat (length l)))) with (Z.to_nat i)
      by lia.
    destruct (Z_lt_le_dec j (Z.of_nat (length l))) as [Hjlt | Hjge].
    + f_equal; lia.
    + rewrite !firstn_all2; [reflexivity | | ];
        rewrite length_skipn; lia.
  - rewrite !skipn_all2 by lia. now rewrite !firstn_nil.
Qed.

Lemma set_slice_nonneg {A} (l v : list A) (i j : Z) :
  0 <= i -> 0 <= j ->
  set_slice l i j v =
  firstn (Z.to_nat i) l ++ v ++ skipn (Z.to_nat (Z.max i j)) l.
Proof.
  intros Hi Hj; unfold set_slice.
  rewrite !clamp_nonneg by (auto using len_nonneg).
  unfold len.
  assert (E1 : firstn (Z.to_nat (Z.min i (Z.of_nat (length l)))) l
               = firstn (Z.to_nat i) l).
  { destruct (Z_lt_le_dec i (Z.of_nat (length l))).
    - f_equal; lia.
    - rewrite !firstn_all2; [reflexivity | lia | lia]. }
  rewrite E1; do 2 f_equal.
  destruct (Z_lt_le_dec (Z.max i j) (Z.of_nat (length l))).
  - f_equal; lia.
  - rewrite !skipn_all2; [reflexivity | lia | lia].
Qed.

Lemma len_slice {A} (l : list A) (i j : Z) :
  0 <= i -> 0 <= j ->
  len (slice l i j) = Z.max 0 (Z.min j (len l) - Z.min i (len l)).
Proof.
  intros Hi Hj; rewrite slice_nonneg by assumption.
  unfold len; rewrite length_firstn, length_skipn; lia.
Qed.

Lemma slice_empty {A} (l : list A) (i j : Z) :
  0 <= i -> 0 <= j -> len l <= i -> slice l i j = [].
Proof.
  intros Hi Hj Hl; rewrite slice_nonneg by assumption.
  unfold len in Hl; rewrite skipn_all2 by lia. apply firstn_nil.
Qed.

Lemma slice_all {A} (l : list A) (j : Z) : len l <= j -> slice l 0 j = l.
Proof.
  intros Hl; pose proof (len_nonneg l).
  rewrite slice_nonneg by lia; simpl skipn.
  unfold len in *; apply firstn_all2; lia.
Qed.

Lemma slice_app_l {A} (a b : list A) : slice (a ++ b) 0 (len a) = a.
Proof.
  pose proof (len_nonneg a).
  rewrite slice_nonneg by lia; simpl skipn.
  unfold len; rewrite Z.sub_0_r, Nat2Z.id.
  rewrite firstn_app, Nat.sub_diag, firstn_all; simpl.
  apply app_nil_r.
Qed.

Lemma slice_app_r {A} (a b : list A) (i j : Z) :
  0 <= i -> 0 <= j ->
  slice (a ++ b) (len a + i) (len a + j) = slice b i j.
Proof.
  intros Hi Hj; pose proof (len_nonneg a).
  rewrite !slice_nonneg by lia.
  replace (len a + j - (len a + i)) with (j - i) by lia.
  f_equal. unfold len.
  rewrite skipn_app, skipn_all2 by lia; simpl.
  f_equal; lia.
Qed.

Lemma firstn_plus {A} (n m : nat) (l : list A) :
  firstn (n + m) l = firstn n l ++ firstn m (skipn n l).
Proof.
  revert l; induction n as [| n IH]; intros [| x l]; simpl;
    try reflexivity.
  - now rewrite firstn_nil.
  - now rewrite IH.
Qed.

(** Splitting a slice at an intermediate bound. *)
Lemma slice_split {A} (l : list A) (i k j : Z) :
  0 <= i <= k -> k <= j ->
  slice l i j = slice l i k ++ slice l k j.
Proof.
  intros Hik Hkj; rewrite !slice_nonneg by lia.
  replace (Z.to_nat (j - i)) with (Z.to_nat (k - i) + Z.to_nat (j - k))%nat
    by lia.
  rewrite firstn_plus.
  f_equal. rewrite skipn_skipn.
  do 2 f_equal; lia.
Qed.

Lemma slice_whole {A} (l : list A) (i : Z) :
  0 <= i -> slice l 0 i ++ slice l i (len l) = l.
Proof.
  intros Hi; pose proof (len_nonneg l).
  destruct (Z_le_gt_dec i (len l)).
  - rewrite <- slice_split by lia. apply slice_all; lia.
  - rewrite (slice_empty l i) by lia. rewrite app_nil_r.
    apply slice_all; lia.
Qed.

Lemma slice_from_nonneg {A} (l : list A) (i : Z) :
  0 <= i -> slice_from l i = skipn (Z.to_nat i) l.
Proof.
  intros Hi; unfold slice_from; pose proof (len_nonneg l).
  rewrite slice_nonneg by lia.
  apply firstn_all2. rewrite length_skipn. unfold len; lia.
Qed.

Lemma slice_to_nonneg {A} (l : list A) (j : Z) :
  0 <= j -> slice l 0 j = firstn (Z.to_nat j) l.
Proof.
  intros Hj; rewrite slice_nonneg by lia; simpl skipn.
  now rewrite Z.sub_0_r.
Qed.

Lemma slice_from_app_r {A} (a b : list A) (i : Z) :
  0 <= i -> slice_from (a ++ b) (len a + i) = slice_from b i.
Proof.
  intros Hi; pose proof (len_nonneg a).
  rewrite !slice_from_nonneg by lia. unfold len.
  rewrite skipn_app, skipn_all2 by lia; simpl.
  f_equal; lia.
Qed.

(** Assigning [p] to the slice [o : o + k]: what precedes [o] is kept,
    then comes [p], then what follows [o + k]. *)
Lemma set_slice_eq {A} (l p : list A) (o k : Z) :
  0 <= o -> 0 <= k ->
  set_slice l o (o + k) p = slice l 0 o ++ p ++ slice_from l (o + k).
Proof.
  intros Ho Hk; rewrite set_slice_nonneg by lia.
  rewrite slice_to_nonneg, slice_from_nonneg by lia.
  do 3 f_equal; lia.
Qed.

Lemma slice_app_r0 {A} (a b : list A) (j : Z) :
  0 <= j -> slice (a ++ b) (len a) (len a + j) = slice b 0 j.
Proof.
  intros Hj. rewrite <- (slice_app_r a b 0 j) by lia.
  now rewrite Z.add_0_r.
Qed.

Lemma slice_from_app_r0 {A} (a b : list A) :
  slice_from (a ++ b) (len a) = b.
Proof.
  rewrite <- (Z.add_0_r (len a)), slice_from_app_r by lia.
  now rewrite slice_from_nonneg by lia.
Qed.

Lemma skipn_nth_error {A} (l : list A) (n : nat) (a : A) :
  nth_error l n = Some a -> skipn n l = a :: skipn (S n) l.
Proof.
  revert l; induction n as [| n IH]; intros [| x l] H;
    try discriminate H.
  - now injection H as ->.
  - simpl in H. simpl skipn at 1. rewrite (IH l H). reflexivity.
Qed.

(** The first element of a non-empty slice. *)
Lemma slice_cons {A} (l : list A) (i j : Z) (a : A) :
  0 <= i < j -> nth_error l (Z.to_nat i) = Some a ->
  slice l i j = a :: slice l (i + 1) j.
Proof.
  intros Hij Hn. rewrite !slice_nonneg by lia.
  rewrite (skipn_nth_error l _ a Hn).
  replace (Z.to_nat (j - i)) with (S (Z.to_nat (j - (i + 1)))) by lia.
  replace (Z.to_nat (i + 1)) with (S (Z.to_nat i)) by lia.
  reflexivity.
Qed.

Lemma slice_none {A} (l : list A) (i j : Z) :
  0 <= i -> 0 <= j -> nth_error l (Z.to_nat i) = None -> slice l i j = [].
Proof.
  intros Hi Hj Hn. apply nth_error_None in Hn.
  apply slice_empty; unfold len; lia.
Qed.

Lemma slice_backwards {A} (l : list A) (i j : Z) :
  0 <= j <= i -> slice l i j = [].
Proof.
  intros H. rewrite slice_nonneg by lia.
  now replace (Z.to_nat (j - i)) with 0%nat by lia.
Qed.

Lemma slice_from_slice_from {A} (l : list A) (i k : Z) :
  0 <= i -> 0 <= k ->
  slice_from (slice_from l i) k = slice_from l (i + k).
Proof.
  intros Hi Hk. rewrite !slice_from_nonneg by lia.
  rewrite skipn_skipn. f_equal; lia.
Qed.

Lemma slice_from_split {A} (l : list A) (i k : Z) :
  0 <= i <= k -> slice_from l i = slice l i k ++ slice_from l k.
Proof.
  intros H. pose proof (len_nonneg l). unfold slice_from.
  destruct (Z_le_gt_dec k (len l)).
  - apply slice_split; lia.
  - rewrite (slice_empty l k) by lia. rewrite app_nil_r.
    rewrite !slice_nonneg by lia.
    rewrite !firstn_all2; [reflexivity | |];
      rewrite length_skipn; unfold len in *; lia.
Qed.

Lemma slice_app_l_len {A} (a b : list A) (k : Z) :
  len a = k -> slice (a ++ b) 0 k = a.
Proof. intros <-; apply slice_app_l. Qed.

Lemma slice_from_app_r_len {A} (a b : list A) (k j : Z) :
  len a = k -> 0 <= j -> slice_from (a ++ b) (k + j) = slice_from b j.
Proof. intros <-; apply slice_from_app_r. Qed.

Lemma slice_from_empty {A} (l : list A) (i : Z) :
  len l <= i -> slice_from l i = [].
Proof.
  intros Hi; pose proof (len_nonneg l).
  unfold slice_from; apply slice_empty; lia.
Qed.

Lemma length_concat_repeat {A} (b : list A) (k : nat) :
  length (concat (repeat b k)) = (k * length b)%nat.
Proof.
  induction k as [| k IH]; simpl; [reflexivity |].
  rewrite length_app, IH; reflexivity.
Qed.

Lemma len_mul (b : bytes) (n : Z) : len (mul b n) = len b * Z.max 0 n.
Proof. unfold mul, len; rewrite length_concat_repeat; nia. Qed.

Lemma mul_one (b : bytes) : mul b 1 = b.
Proof. unfold mul; simpl. apply app_nil_r. Qed.

(** *** Integers and their big-endian digits *)

Lemma int_of_byte_range (b : byte) : 0 <= int_of_byte b < 256.
Proof.
  unfold int_of_byte; pose proof (Byte.to_N_bounded b); lia.
Qed.

Lemma byte_of_int_of_byte (b : byte) : byte_of_int (int_of_byte b) = b.
Proof.
  unfold byte_of_int, int_of_byte.
  now rewrite N2Z.id, Byte.of_to_N.
Qed.

Lemma int_of_byte_of_int (n : Z) :
  0 <= n < 256 -> int_of_byte (byte_of_int n) = n.
Proof.
  intros Hn; unfold byte_of_int, int_of_byte.
  destruct (Byte.of_N (Z.to_N n)) as [b |] eqn:E.
  - apply Byte.to_of_N in E; lia.
  - apply Byte.of_N_None_iff in E; lia.
Qed.

Lemma int_from_bytes_snoc (a : bytes) (x : byte) :
  int_from_bytes (a ++ [x]) = int_from_bytes a * 256 + int_of_byte x.
Proof. unfold int_from_bytes; now rewrite fold_left_app. Qed.

Lemma length_big_endian (k : nat) (n : Z) : length (big_endian k n) = k.
Proof.
  revert n; induction k as [| k IH]; intros n; simpl; [reflexivity |].
  rewrite length_app, IH; simpl; lia.
Qed.

Lemma int_from_big_endian (k : nat) (n : Z) :
  0 <= n < 256 ^ Z.of_nat k -> int_from_bytes (big_endian k n) = n.
Proof.
  revert n; induction k as [| k IH]; intros n Hn.
  - simpl in *; unfold int_from_bytes; simpl; lia.
  - rewrite Nat2Z.inj_succ, Z.pow_succ_r in Hn by lia.
    simpl; rewrite int_from_bytes_snoc, IH.
    + rewrite int_of_byte_of_int by (apply Z.mod_pos_bound; lia).
      pose proof (Z.div_mod n 256); lia.
    + split; [apply Z.div_pos; lia |].
      apply Z.div_lt_upper_bound; lia.
Qed.

Lemma int_from_bytes_range (b : bytes) :
  0 <= int_from_bytes b < 256 ^ len b.
Proof.
  induction b as [| x b IH] using rev_ind.
  - unfold int_from_bytes; simpl; lia.
  - rewrite int_from_bytes_snoc, len_app.
    change (len [x]) with 1.
    pose proof (len_nonneg b); pose proof (int_of_byte_range x).
    rewrite Z.pow_add_r by lia. lia.
Qed.

Lemma int_to_bytes_ok (n k : Z) :
  0 <= n < 256 ^ k ->
  int_to_bytes n k = Ok (big_endian (Z.to_nat k) n).
Proof.
  intros Hn; unfold int_to_bytes.
  destruct (n <? 0) eqn:E1; [apply Z.ltb_lt in E1; lia |].
  destruct (256 ^ k <=? n) eqn:E2; [apply Z.leb_le in E2; lia |].
  reflexivity.
Qed.

Lemma bytes_eqb_eq (a b : bytes) : bytes_eqb a b = true <-> a = b.
Proof.
  revert b; induction a as [| x a IH]; intros [| y b]; simpl;
    try (split; [discriminate | discriminate]); [tauto |].
  rewrite andb_true_iff, IH. split.
  - intros [H1 H2]; apply Byte.byte_dec_bl in H1; congruence.
  - intros H; injection H as -> ->; split;
      [now apply Byte.byte_dec_lb | reflexivity].
Qed.

Lemma bytes_eqb_neq (a b : bytes) : bytes_eqb a b = false <-> a <> b.
Proof.
  rewrite <- bytes_eqb_eq. destruct (bytes_eqb a b); split; congruence.
Qed.

End PyFacts.

(* ================================================================== *)
(** * The record codec *)

Module RecordFacts.
Import PyFacts IPSPatchRecord.

Lemma OFFSET_MAX_val : OFFSET_MAX = 16777215.
Proof. reflexivity. Qed.
Lemma SIZE_MAX_val : SIZE_MAX = 65535.
Proof. reflexivity. Qed.
Lemma RLE_SIZE_MAX_val : RLE_SIZE_MAX = 65535.
Proof. reflexivity. Qed.
Lemma OFFSET_SIZE_val : OFFSET_SIZE = 3.
Proof. reflexivity. Qed.
Lemma SIZE_SIZE_val : SIZE_SIZE = 2.
Proof. reflexivity. Qed.
Lemma RLE_SIZE_SIZE_val : RLE_SIZE_SIZE = 2.
Proof. reflexivity. Qed.

Create Rewrite HintDb ips_consts.
#[export] Hint Rewrite OFFSET_MAX_val SIZE_MAX_val RLE_SIZE_MAX_val
  OFFSET_SIZE_val SIZE_SIZE_val RLE_SIZE_SIZE_val : ips_consts.

Ltac consts := autorewrite with ips_consts in *.

(** *** The constructor *)

Lemma init_ok (o : Z) (d : bytes) (r : Z) :
  0 <= o <= OFFSET_MAX -> len d <= SIZE_MAX -> 0 <= r <= RLE_SIZE_MAX ->
  __init__ o d r = Ok (Build o d r).
Proof.
  intros Ho Hd Hr; unfold __init__.
  replace ((0 <=? o) && (o <=? OFFSET_MAX)) with true
    by (symmetry; apply andb_true_iff; split; apply Z.leb_le; lia).
  replace (len d >? SIZE_MAX) with false
    by (symmetry; rewrite Z.gtb_ltb; apply Z.ltb_ge; lia).
  replace ((0 <=? r) && (r <=? RLE_SIZE_MAX)) with true
    by (symmetry; apply andb_true_iff; split; apply Z.leb_le; lia).
  reflexivity.
Qed.

Lemma init_inv (o : Z) (d : bytes) (r : Z) (x : t) :
  __init__ o d r = Ok x ->
  x = Build o d r /\
  0 <= o <= OFFSET_MAX /\ len d <= SIZE_MAX /\ 0 <= r <= RLE_SIZE_MAX.
Proof.
  unfold __init__.
  destruct ((0 <=? o) && (o <=? OFFSET_MAX)) eqn:Eo; simpl;
    [| discriminate].
  destruct (len d >? SIZE_MAX) eqn:Ed; [discriminate |].
  destruct ((0 <=? r) && (r <=? RLE_SIZE_MAX)) eqn:Er; simpl;
    [| discriminate].
  intros [= <-].
  apply andb_true_iff in Eo, Er.
  rewrite !Z.leb_le in Eo, Er.
  rewrite Z.gtb_ltb in Ed; apply Z.ltb_ge in Ed.
  repeat split; lia.
Qed.

Lemma constructible_iff (r : t) :
  constructible r <->
  0 <= offset r <= OFFSET_MAX /\ len (data r) <= SIZE_MAX /\
  0 <= rle_size r <= RLE_SIZE_MAX.
Proof.
  unfold constructible; split.
  - intros H; apply init_inv in H; tauto.
  - intros (Ho & Hd & Hr). rewrite init_ok by assumption.
    now destruct r.
Qed.

Lemma init_constructible (o : Z) (d : bytes) (r : Z) (x : t) :
  __init__ o d r = Ok x -> constructible x.
Proof.
  intros H; apply init_inv in H as (-> & Ho & Hd & Hr).
  apply constructible_iff; simpl; auto.
Qed.

Lemma is_rle_true (r : t) : is_rle r = true <-> 0 < rle_size r.
Proof. unfold is_rle; rewrite Z.gtb_ltb; apply Z.ltb_lt. Qed.

Lemma is_rle_false (r : t) : is_rle r = false <-> rle_size r <= 0.
Proof. unfold is_rle; rewrite Z.gtb_ltb; apply Z.ltb_ge. Qed.

(** Every record is at least as long as its five-byte header. *)
Lemma len_record_ge_5 (r : t) : 5 <= __len__ r.
Proof.
  unfold __len__; consts; pose proof (len_nonneg (data r)).
  destruct (is_rle r); lia.
Qed.

(** *** Decoding *)

Lemma int_from_bytes_bound (b : bytes) (k : Z) :
  len b <= k -> 0 <= int_from_bytes b < 256 ^ k.
Proof.
  intros Hk; pose proof (int_from_bytes_range b) as H.
  pose proof (len_nonneg b).
  assert (256 ^ len b <= 256 ^ k) by (apply Z.pow_le_mono_r; lia).
  lia.
Qed.

Lemma len_slice_le {A} (l : list A) (i j : Z) :
  0 <= i <= j -> len (slice l i j) <= j - i.
Proof.
  intros H; rewrite len_slice by lia.
  pose proof (len_nonneg l); lia.
Qed.

(** The decoder of a record never raises: every field it reads fits the
    range that the constructor checks. *)
Lemma from_bytes_total (view : bytes) : exists r, from_bytes view = Ok r.
Proof.
  unfold from_bytes; cbv zeta; consts.
  set (o := int_from_bytes (slice view 0 (0 + 3))).
  set (s := int_from_bytes (slice view (0 + 3) (0 + 3 + 2))).
  set (rl := int_from_bytes (slice view (0 + 3 + 2) (0 + 3 + 2 + 2))).
  assert (Ho : 0 <= o < 256 ^ 3)
    by (apply int_from_bytes_bound, len_slice_le; lia).
  assert (Hs : 0 <= s < 256 ^ 2)
    by (apply int_from_bytes_bound;
        etransitivity; [apply len_slice_le |]; lia).
  assert (Hr : 0 <= rl < 256 ^ 2)
    by (apply int_from_bytes_bound;
        etransitivity; [apply len_slice_le |]; lia).
  change (256 ^ 3) with 16777216 in Ho.
  change (256 ^ 2) with 65536 in Hs, Hr.
  destruct (s >? 0) eqn:E.
  - eexists; apply init_ok; consts; try lia.
    etransitivity; [apply len_slice_le |]; lia.
  - eexists; apply init_ok; consts; try lia.
    etransitivity; [apply len_slice_le |]; lia.
Qed.

(** Decoding a span that starts with a literal record: three offset
    bytes, a non-zero size field, and that many bytes. *)
Lemma from_bytes_literal (o s d post : bytes) :
  len o = 3 -> len s = 2 -> int_from_bytes s = len d -> 0 < len d ->
  from_bytes (o ++ s ++ d ++ post) = __init__ (int_from_bytes o) d 0.
Proof.
  intros Ho Hs Hsz Hd; unfold from_bytes; cbv zeta; consts.
  assert (E1 : slice (o ++ s ++ d ++ post) 0 (0 + 3) = o)
    by (simpl Z.add; rewrite <- Ho; apply slice_app_l).
  assert (E2 : slice (o ++ s ++ d ++ post) (0 + 3) (0 + 3 + 2) = s).
  { replace (0 + 3) with (len o + 0) by lia.
    replace (len o + 0 + 2) with (len o + len s) by lia.
    rewrite slice_app_r by lia. apply slice_app_l. }
  rewrite E1, E2, Hsz.
  replace (len d >? 0) with true
    by (symmetry; rewrite Z.gtb_ltb; apply Z.ltb_lt; lia).
  f_equal.
  replace (0 + 3 + 2) with (len o + (len s + 0)) by lia.
  replace (len o + (len s + 0) + len d)
    with (len o + (len s + len d)) by lia.
  pose proof (len_nonneg d).
  rewrite !slice_app_r by lia. apply slice_app_l.
Qed.

(** Decoding a span that starts with an RLE header: three offset bytes,
    a zero size field, two bytes of run length and the fill byte. *)
Lemma from_bytes_rle (o r : bytes) (f : byte) (post : bytes) :
  len o = 3 -> len r = 2 ->
  from_bytes (o ++ [x00; x00] ++ r ++ f :: post)
  = __init__ (int_from_bytes o) [f] (int_from_bytes r).
Proof.
  intros Ho Hr; unfold from_bytes; cbv zeta; consts.
  set (z := [x00; x00]).
  assert (Hz : len z = 2) by reflexivity.
  assert (E1 : slice (o ++ z ++ r ++ f :: post) 0 (0 + 3) = o)
    by (simpl Z.add; rewrite <- Ho; apply slice_app_l).
  assert (E2 : slice (o ++ z ++ r ++ f :: post) (0 + 3) (0 + 3 + 2) = z).
  { replace (0 + 3) with (len o + 0) by lia.
    replace (len o + 0 + 2) with (len o + len z) by lia.
    rewrite slice_app_r by lia. apply slice_app_l. }
  rewrite E1, E2.
  change (int_from_bytes z >? 0) with false; cbv iota.
  assert (E3 : slice (o ++ z ++ r ++ f :: post) (0 + 3 + 2) (0 + 3 + 2 + 2)
               = r).
  { replace (0 + 3 + 2) with (len o + (len z + 0)) by lia.
    replace (len o + (len z + 0) + 2)
      with (len o + (len z + len r)) by lia.
    rewrite !slice_app_r by lia. apply slice_app_l. }
  assert (E4 : slice (o ++ z ++ r ++ f :: post) (0 + 3 + 2 + 2)
                     (0 + 3 + 2 + 2 + 1) = [f]).
  { replace (0 + 3 + 2 + 2) with (len o + (len z + (len r + 0))) by lia.
    replace (len o + (len z + (len r + 0)) + 1)
      with (len o + (len z + (len r + len [f])))
      by (change (len [f]) with 1; lia).
    rewrite !slice_app_r by (change (len [f]) with 1; lia).
    apply (slice_app_l [f] post). }
  now rewrite E3, E4.
Qed.

(** *** Encoding *)

Lemma len_big_endian (k : nat) (n : Z) : len (big_endian k n) = Z.of_nat k.
Proof. unfold len; now rewrite length_big_endian. Qed.

Lemma to_bytes_literal (r : t) :
  constructible r -> is_rle r = false ->
  to_bytes r = Ok (big_endian 3 (offset r)
                     ++ big_endian 2 (len (data r)) ++ data r).
Proof.
  intros Hc Hl; apply constructible_iff in Hc as (Ho & Hd & Hr).
  consts. pose proof (len_nonneg (data r)).
  unfold to_bytes; rewrite Hl; consts.
  rewrite !int_to_bytes_ok
    by (first [change (256 ^ 3) with 16777216
              | change (256 ^ 2) with 65536]; lia).
  reflexivity.
Qed.

Lemma to_bytes_rle (r : t) :
  constructible r -> is_rle r = true ->
  to_bytes r = Ok (big_endian 3 (offset r) ++ [x00; x00]
                     ++ big_endian 2 (rle_size r)
                     ++ mul (slice (data r) 0 1) (rle_size r)).
Proof.
  intros Hc Hl; apply constructible_iff in Hc as (Ho & Hd & Hr).
  consts.
  unfold to_bytes; rewrite Hl; consts.
  rewrite !int_to_bytes_ok
    by (first [change (256 ^ 3) with 16777216
              | change (256 ^ 2) with 65536]; lia).
  reflexivity.
Qed.

(** A valid record encodes, and its encoding followed by any bytes
    decodes to the record. *)
Lemma from_bytes_to_bytes_app (r : t) (post : bytes) :
  valid_record r ->
  exists b, to_bytes r = Ok b /\ from_bytes (b ++ post) = Ok r.
Proof.
  intros [Hc Hv].
  pose proof Hc as Hc'.
  apply constructible_iff in Hc' as (Ho & Hd & Hr); consts.
  destruct (is_rle r) eqn:E.
  - rewrite (to_bytes_rle r Hc E). eexists; split; [reflexivity |].
    apply is_rle_true in E.
    destruct (data r) as [| f [| ? ?]] eqn:Ed;
      try (exfalso; unfold len in Hv; simpl in Hv; lia).
    rewrite (slice_all [f]) by (change (len [f]) with 1; lia).
    remember (rle_size r) as n eqn:En.
    assert (Hm : exists tl, mul [f] n = f :: tl).
    { unfold mul. destruct (Z.to_nat n) as [| k] eqn:Ek; [lia |].
      simpl; eauto. }
    destruct Hm as [tl ->].
    rewrite <- !app_assoc.
    change ((f :: tl) ++ post) with (f :: (tl ++ post)).
    rewrite from_bytes_rle by apply len_big_endian.
    rewrite !int_from_big_endian
      by (first [change (256 ^ Z.of_nat 3) with 16777216
                | change (256 ^ Z.of_nat 2) with 65536]; lia).
    rewrite init_ok by (consts; change (len [f]) with 1; lia).
    destruct r; simpl in *; congruence.
  - rewrite (to_bytes_literal r Hc E). eexists; split; [reflexivity |].
    apply is_rle_false in E.
    rewrite <- !app_assoc.
    rewrite from_bytes_literal; try apply len_big_endian; try assumption.
    + rewrite !int_from_big_endian
        by (first [change (256 ^ Z.of_nat 3) with 16777216
                  | change (256 ^ Z.of_nat 2) with 65536]; lia).
      rewrite init_ok by (consts; lia).
      destruct r; simpl in *; f_equal; f_equal; lia.
    + apply int_from_big_endian.
      change (256 ^ Z.of_nat 2) with 65536; lia.
Qed.

(** *** Properties of single records *)

(** C3 (record round trip).  For every valid record [r], a literal
    record with non-empty data of at most 65535 bytes or an RLE record
    with a one-byte fill value, [to_bytes] succeeds and [from_bytes]
    applied to the bytes it produces returns a record with the offset,
    the data and the run length of [r] (hence the same RLE flag). *)
Theorem record_roundtrip (r : t) :
  valid_record r ->
  exists b, to_bytes r = Ok b /\ from_bytes b = Ok r.
Proof.
  intros H.
  destruct (from_bytes_to_bytes_app r [] H) as (b & Hb & Hd).
  rewrite app_nil_r in Hd. exists b; split; assumption.
Qed.

Lemma record_roundtrip_witness :
  valid_record (Build 7 [x41] 3) /\
  exists b, to_bytes (Build 7 [x41] 3) = Ok b /\
            from_bytes b = Ok (Build 7 [x41] 3).
Proof.
  assert (H : valid_record (Build 7 [x41] 3))
    by (split; reflexivity).
  split; [exact H | exact (record_roundtrip (Build 7 [x41] 3) H)].
Defined.

(** The constructor accepts a literal record without data. *)
Lemma empty_literal_not_rejected :
  __init__ 0 [] 0 = Ok (Build 0 [] 0) /\
  is_rle (Build 0 [] 0) = false /\
  to_bytes (Build 0 [] 0) = Ok [x00; x00; x00; x00; x00].
Proof. repeat split. Qed.

(** C5, in the form that holds of the code.
    [__init__] checks the range of the offset, the
    length of the data against [SIZE_MAX] and the range of the run
    length, and nothing else: for every offset in range, a record with
    empty data and run length 0 is built.  It is not an RLE record, its
    size field is 0 and its encoding is the three offset bytes followed
    by a zero size field. *)
Theorem empty_literal_constructed (o : Z) :
  0 <= o <= OFFSET_MAX ->
  __init__ o [] 0 = Ok (Build o [] 0) /\
  is_rle (Build o [] 0) = false /\
  size (Build o [] 0) = 0 /\
  to_bytes (Build o [] 0) = Ok (big_endian 3 o ++ [x00; x00]).
Proof.
  intros Ho.
  assert (Hi : __init__ o [] 0 = Ok (Build o [] 0))
    by (apply init_ok; [assumption | now consts | now consts]).
  repeat split; try assumption.
  rewrite to_bytes_literal; [reflexivity | | reflexivity].
  exact Hi.
Qed.

Lemma empty_literal_constructed_witness :
  0 <= 5 <= OFFSET_MAX /\
  __init__ 5 [] 0 = Ok (Build 5 [] 0) /\
  is_rle (Build 5 [] 0) = false /\
  size (Build 5 [] 0) = 0 /\
  to_bytes (Build 5 [] 0) = Ok (big_endian 3 5 ++ [x00; x00]).
Proof.
  assert (H : 0 <= 5 <= OFFSET_MAX) by (consts; lia).
  split; [exact H | exact (empty_literal_constructed 5 H)].
Defined.

(** The constructor accepts an RLE record with two bytes of data. *)
Lemma rle_record_two_bytes :
  __init__ 0 [x41; x42] 3 = Ok (Build 0 [x41; x42] 3) /\
  is_rle (Build 0 [x41; x42] 3) = true /\
  len (data (Build 0 [x41; x42] 3)) = 2.
Proof. repeat split. Qed.

(** What the constructor accepts as an RLE record: any data that fits
    the size field. *)
Lemma init_rle_any_data (o : Z) (d : bytes) (n : Z) :
  0 <= o <= OFFSET_MAX -> len d <= SIZE_MAX -> 0 < n <= RLE_SIZE_MAX ->
  exists r, __init__ o d n = Ok r /\ is_rle r = true /\ data r = d.
Proof.
  intros Ho Hd Hn. exists (Build o d n).
  rewrite init_ok by (try assumption; lia).
  repeat split. apply is_rle_true; simpl; lia.
Qed.

(** C7, in the form that holds of the code.
    An RLE record that [from_bytes] decodes holds at most
    one byte of data, and exactly one, the fill value, when the span has
    the eight bytes of an RLE record.  (The constructor does not look at
    the length of the data of an RLE record.) *)
Theorem decoded_rle_data (view : bytes) (r : t) :
  from_bytes view = Ok r -> is_rle r = true ->
  len (data r) <= 1 /\ (8 <= len view -> len (data r) = 1).
Proof.
  unfold from_bytes; cbv zeta; consts; intros H Hrle.
  destruct (int_from_bytes (slice view (0 + 3) (0 + 3 + 2)) >? 0).
  - apply init_inv in H as (-> & _). discriminate Hrle.
  - apply init_inv in H as (-> & _). simpl.
    rewrite len_slice by lia. pose proof (len_nonneg view). lia.
Qed.

Lemma decoded_rle_data_witness :
  from_bytes [x00; x00; x07; x00; x00; x00; x03; x41]
  = Ok (Build 7 [x41] 3) /\
  is_rle (Build 7 [x41] 3) = true /\
  len (data (Build 7 [x41] 3)) <= 1 /\
  (8 <= len [x00; x00; x07; x00; x00; x00; x03; x41] ->
   len (data (Build 7 [x41] 3)) = 1).
Proof.
  split; [reflexivity |]. split; [reflexivity |].
  exact (decoded_rle_data [x00; x00; x07; x00; x00; x00; x03; x41]
                          (Build 7 [x41] 3) eq_refl eq_refl).
Defined.

(** *** Applying a record *)

Lemma apply_eq (r : t) (buf : bytes) :
  constructible r ->
  apply r buf = set_slice buf (offset r) (offset r + applied_size r)
                          (payload r).
Proof.
  intros _; unfold apply, applied_size, payload.
  destruct (is_rle r); reflexivity.
Qed.

Lemma len_payload (r : t) :
  (is_rle r = true -> data r <> []) ->
  len (payload r) = applied_size r.
Proof.
  intros Hne; unfold payload, applied_size, size.
  destruct (is_rle r) eqn:E; [| reflexivity].
  apply is_rle_true in E.
  rewrite len_mul, len_slice by lia.
  destruct (data r) as [| x d]; [now contradiction Hne |].
  replace (Z.min 1 (len (x :: d)) - Z.min 0 (len (x :: d))) with 1
    by (unfold len; simpl length; lia).
  lia.
Qed.

Lemma applied_size_nonneg (r : t) : 0 <= applied_size r.
Proof.
  unfold applied_size, size.
  destruct (is_rle r) eqn:E.
  - apply is_rle_true in E; lia.
  - apply len_nonneg.
Qed.

(** Applying a record whose offset lies inside the buffer or at its
    end. *)
Lemma apply_no_gap (r : t) (buf : bytes) :
  constructible r -> (is_rle r = true -> data r <> []) ->
  offset r <= len buf ->
  apply r buf = slice buf 0 (offset r) ++ payload r
                  ++ slice_from buf (range_end r).
Proof.
  intros Hc Hne Ho. rewrite apply_eq by assumption.
  apply constructible_iff in Hc as (Hoff & _).
  apply set_slice_eq; [lia | apply applied_size_nonneg].
Qed.

(** A record whose offset lies beyond the end of the buffer is appended
    at the end: the buffer does not reach the offset. *)
Lemma apply_beyond_end :
  apply (Build 2 [x41] 0) [] = [x41] /\
  len (apply (Build 2 [x41] 0) []) < 2 + applied_size (Build 2 [x41] 0).
Proof. split; reflexivity. Qed.

(** C6, in the form that holds of the code.
    For every constructible record, with non-empty data
    when it is an RLE record, and every buffer that reaches the offset of
    the record: if the range of the record extends past the end of the
    buffer, applying the record grows the buffer to exactly the end of
    the range, the bytes of the record occupy the range, and the bytes
    before the offset are kept. *)
Theorem apply_grows (r : t) (buf : bytes) :
  constructible r -> (is_rle r = true -> data r <> []) ->
  offset r <= len buf ->
  len buf < offset r + applied_size r ->
  len (apply r buf) = offset r + applied_size r /\
  slice (apply r buf) (offset r) (offset r + applied_size r) = payload r /\
  slice (apply r buf) 0 (offset r) = slice buf 0 (offset r).
Proof.
  intros Hc Hne Ho Hext.
  rewrite apply_no_gap by assumption.
  pose proof (len_payload r Hne) as Hp.
  apply constructible_iff in Hc as (Hoff & _).
  rewrite slice_from_empty by (unfold range_end; lia).
  rewrite app_nil_r.
  assert (Hl : len (slice buf 0 (offset r)) = offset r)
    by (rewrite len_slice by lia; lia).
  repeat split.
  - rewrite len_app; lia.
  - rewrite <- Hp.
    replace (offset r) with (len (slice buf 0 (offset r)) + 0) at 2 3
      by lia.
    rewrite <- Z.add_assoc, slice_app_r
      by (pose proof (len_nonneg (payload r)); lia).
    apply slice_all; lia.
  - transitivity (slice (slice buf 0 (offset r) ++ payload r) 0
                        (len (slice buf 0 (offset r)))).
    + now rewrite Hl.
    + apply slice_app_l.
Qed.

Lemma apply_grows_witness :
  constructible (Build 2 [x41; x42] 0) /\
  (is_rle (Build 2 [x41; x42] 0) = true ->
   data (Build 2 [x41; x42] 0) <> []) /\
  offset (Build 2 [x41; x42] 0) <= len [x01; x02; x03] /\
  len [x01; x02; x03] < 2 + applied_size (Build 2 [x41; x42] 0) /\
  len (apply (Build 2 [x41; x42] 0) [x01; x02; x03]) = 4.
Proof.
  assert (H1 : constructible (Build 2 [x41; x42] 0)) by reflexivity.
  assert (H2 : is_rle (Build 2 [x41; x42] 0) = true ->
               data (Build 2 [x41; x42] 0) <> []) by discriminate.
  assert (H3 : offset (Build 2 [x41; x42] 0) <= len [x01; x02; x03])
    by (vm_compute; discriminate).
  assert (H4 : len [x01; x02; x03]
               < offset (Build 2 [x41; x42] 0)
                 + applied_size (Build 2 [x41; x42] 0))
    by reflexivity.
  refine (conj H1 (conj H2 (conj H3 (conj H4 _)))).
  exact (proj1 (apply_grows (Build 2 [x41; x42] 0) [x01; x02; x03]
                            H1 H2 H3 H4)).
Defined.

End RecordFacts.

(* ================================================================== *)
(** * The patch container: decoding and encoding *)

Module CodecFacts.
Import PyFacts RecordFacts.
Import IPSPatch.

Lemma len_PATCH : len PATCH = 5.
Proof. reflexivity. Qed.

Lemma len_EOF : len EOF = 3.
Proof. reflexivity. Qed.

(** *** One iteration of the decoding loop *)

(** The head of the loop does not depend on the budget. *)
Lemma loop_unfold (fuel : nat) (data : bytes) (i : Z)
      (acc : list IPSPatchRecord.t) :
  from_bytes_loop fuel data i acc
  = if bytes_eqb (slice data i (i + len EOF)) EOF then Ok acc
    else if len (slice_from data i) =? 0 then Raise invalid_format
         else match fuel with
              | O => OutOfFuel
              | S fuel' =>
                  r <- IPSPatchRecord.from_bytes (slice_from data i) ;;
                  from_bytes_loop fuel' data
                    (i + IPSPatchRecord.__len__ r) (acc ++ [r])
              end.
Proof. destruct fuel; reflexivity. Qed.

(** Behind the end of the buffer the loop raises. *)
Lemma loop_past_end (fuel : nat) (data : bytes) (i : Z)
      (acc : list IPSPatchRecord.t) :
  0 <= i -> len data <= i ->
  from_bytes_loop fuel data i acc = Raise invalid_format.
Proof.
  intros Hi Hl.
  rewrite loop_unfold, slice_empty, slice_from_empty
    by (rewrite ?len_EOF; lia).
  reflexivity.
Qed.

(** The three outcomes of one iteration: the end marker is found, the
    buffer is exhausted, or a record is decoded and the cursor moves
    forward by the length of that record, at least five. *)
Lemma loop_step (fuel : nat) (data : bytes) (i : Z)
      (acc : list IPSPatchRecord.t) :
  from_bytes_loop (S fuel) data i acc = Ok acc \/
  from_bytes_loop (S fuel) data i acc = Raise invalid_format \/
  exists r,
    IPSPatchRecord.from_bytes (slice_from data i) = Ok r /\
    i + 5 <= i + IPSPatchRecord.__len__ r /\
    from_bytes_loop (S fuel) data i acc
    = from_bytes_loop fuel data (i + IPSPatchRecord.__len__ r) (acc ++ [r]).
Proof.
  simpl.
  destruct (bytes_eqb (slice data i (i + len EOF)) EOF); [now left |].
  destruct (len (slice_from data i) =? 0); [now right; left |].
  right; right.
  destruct (from_bytes_total (slice_from data i)) as [r Hr].
  exists r; rewrite Hr; simpl.
  pose proof (len_record_ge_5 r). repeat split; lia.
Qed.

(** The loop returns or raises as soon as the budget covers the bytes
    that remain after the cursor. *)
Lemma loop_terminates (fuel : nat) :
  forall (data : bytes) (i : Z) (acc : list IPSPatchRecord.t),
    0 <= i -> len data - i <= Z.of_nat fuel ->
    from_bytes_loop fuel data i acc <> OutOfFuel.
Proof.
  induction fuel as [| fuel IH]; intros data i acc Hi Hf.
  - rewrite loop_past_end by lia. discriminate.
  - destruct (loop_step fuel data i acc) as [E | [E | (r & _ & Hr & E)]];
      rewrite E; try discriminate.
    apply IH; lia.
Qed.

(** A larger budget does not change an outcome. *)
Lemma loop_fuel_mono (fuel : nat) :
  forall (fuel' : nat) (data : bytes) (i : Z)
         (acc : list IPSPatchRecord.t),
    (fuel <= fuel')%nat ->
    from_bytes_loop fuel data i acc <> OutOfFuel ->
    from_bytes_loop fuel' data i acc = from_bytes_loop fuel data i acc.
Proof.
  induction fuel as [| fuel IH]; intros fuel' data i acc Hle Hne;
    rewrite (loop_unfold fuel'); rewrite loop_unfold in Hne |- *;
    destruct (bytes_eqb (slice data i (i + len EOF)) EOF);
    try reflexivity;
    destruct (len (slice_from data i) =? 0); try reflexivity.
  - now contradiction Hne.
  - destruct fuel' as [| fuel']; [lia |].
    destruct (IPSPatchRecord.from_bytes (slice_from data i)) as [r | e |];
      simpl in *; try reflexivity.
    apply IH; [lia | assumption].
Qed.

(** C10 (termination of decoding).  On every buffer, an iteration of the
    decoding loop stops (end marker found, or buffer exhausted) or moves
    the cursor forward by the length of the decoded record, which is at
    least 5; so [from_bytes] returns a patch or raises, and a larger
    iteration budget for the loop gives the same outcome. *)
Theorem from_bytes_terminates (data : bytes) :
  (forall fuel i acc,
      from_bytes_loop (S fuel) data i acc = Ok acc \/
      from_bytes_loop (S fuel) data i acc = Raise invalid_format \/
      exists r,
        IPSPatchRecord.from_bytes (slice_from data i) = Ok r /\
        i + 5 <= i + IPSPatchRecord.__len__ r /\
        from_bytes_loop (S fuel) data i acc
        = from_bytes_loop fuel data (i + IPSPatchRecord.__len__ r)
                          (acc ++ [r])) /\
  ((exists p, from_bytes data = Ok p) \/
   (exists e, from_bytes data = Raise e)) /\
  (forall fuel,
      (length data <= fuel)%nat ->
      from_bytes_loop fuel data (len PATCH) []
      = from_bytes_loop (length data) data (len PATCH) []).
Proof.
  assert (Hne : from_bytes_loop (length data) data (len PATCH) []
                <> OutOfFuel)
    by (apply loop_terminates; rewrite len_PATCH; unfold len; lia).
  split; [| split].
  - intros fuel i acc; apply loop_step.
  - unfold from_bytes; cbv zeta.
    destruct (negb (bytes_eqb (slice data 0 (0 + len PATCH)) PATCH));
      [right; eauto |].
    change (0 + len PATCH) with (len PATCH).
    destruct (from_bytes_loop (length data) data (len PATCH) [])
      as [rs | e |]; simpl; [left | right | contradiction]; eauto.
  - intros fuel Hle; now apply loop_fuel_mono.
Qed.

(** *** Decoding what was encoded *)

Lemma offset_bytes_not_EOF (o : Z) :
  0 <= o <= OFFSET_MAX -> o <> EOF_offset -> big_endian 3 o <> EOF.
Proof.
  intros Ho Hne E; apply Hne; unfold EOF_offset; rewrite <- E.
  symmetry; apply int_from_big_endian.
  consts; change (256 ^ Z.of_nat 3) with 16777216; lia.
Qed.

(** The encoding of a framed record starts with the three bytes of its
    offset and has the length that [__len__] reports. *)
Lemma framed_encoding (r : IPSPatchRecord.t) :
  framed r ->
  exists tail,
    IPSPatchRecord.to_bytes r
    = Ok (big_endian 3 (IPSPatchRecord.offset r) ++ tail) /\
    len (big_endian 3 (IPSPatchRecord.offset r) ++ tail)
    = IPSPatchRecord.__len__ r.
Proof.
  intros ((Hc & Hv) & _ & Hone).
  unfold IPSPatchRecord.__len__; consts.
  destruct (IPSPatchRecord.is_rle r) eqn:E.
  - rewrite (to_bytes_rle r Hc E), (Hone eq_refl), mul_one.
    eexists; split; [reflexivity |].
    rewrite !len_app, !len_big_endian, len_slice by lia.
    change (len [x00; x00]) with 2. lia.
  - rewrite (to_bytes_literal r Hc E).
    eexists; split; [reflexivity |].
    rewrite !len_app, !len_big_endian. lia.
Qed.

(** One iteration over the encoding of a framed record decodes the
    record and moves the cursor to the end of the encoding. *)
Lemma loop_decodes_record (r : IPSPatchRecord.t) (b pre post : bytes)
      (acc : list IPSPatchRecord.t) (fuel : nat) :
  framed r -> IPSPatchRecord.to_bytes r = Ok b ->
  from_bytes_loop (S fuel) (pre ++ b ++ post) (len pre) acc
  = from_bytes_loop fuel (pre ++ b ++ post) (len pre + len b) (acc ++ [r]).
Proof.
  intros Hf Hb.
  destruct (framed_encoding r Hf) as (tail & Ht & Hlen).
  assert (Eb : b = big_endian 3 (IPSPatchRecord.offset r) ++ tail)
    by congruence.
  destruct Hf as (Hv & Hoff & _).
  pose proof (proj1 (constructible_iff r) (proj1 Hv)) as (Ho & _).
  destruct (from_bytes_to_bytes_app r post Hv) as (b' & Hb' & Hdec).
  assert (b' = b) by congruence.
  subst b' b; clear Ht Hb'.
  pose proof (len_record_ge_5 r) as H5.
  rewrite loop_unfold.
  rewrite slice_app_r0 by (rewrite len_EOF; lia).
  rewrite slice_from_app_r0.
  assert (E : slice ((big_endian 3 (IPSPatchRecord.offset r) ++ tail)
                       ++ post) 0 (len EOF)
              = big_endian 3 (IPSPatchRecord.offset r)).
  { rewrite <- app_assoc.
    change (len EOF) with (Z.of_nat 3).
    rewrite <- (len_big_endian 3 (IPSPatchRecord.offset r)).
    apply slice_app_l. }
  rewrite E.
  replace (bytes_eqb (big_endian 3 (IPSPatchRecord.offset r)) EOF)
    with false
    by (symmetry; apply bytes_eqb_neq, offset_bytes_not_EOF; assumption).
  replace (len ((big_endian 3 (IPSPatchRecord.offset r) ++ tail) ++ post)
           =? 0) with false
    by (symmetry; apply Z.eqb_neq; rewrite len_app;
        pose proof (len_nonneg post); lia).
  rewrite Hdec, Hlen. reflexivity.
Qed.

(** The same over the encodings of a list of framed records, as
    [to_bytes_loop] concatenates them. *)
Lemma loop_decodes_records (rs : list IPSPatchRecord.t) :
  Forall framed rs ->
  forall pre : bytes,
  exists body,
    to_bytes_loop rs pre = Ok (pre ++ body) /\
    5 * Z.of_nat (length rs) <= len body /\
    forall (fuel : nat) (post : bytes) (acc : list IPSPatchRecord.t),
      from_bytes_loop (length rs + fuel) (pre ++ body ++ post) (len pre) acc
      = from_bytes_loop fuel (pre ++ body ++ post) (len pre + len body)
                        (acc ++ rs).
Proof.
  induction 1 as [| r rs Hr Hrs IH]; intros pre.
  - exists []. rewrite app_nil_r. split; [reflexivity |].
    split; [reflexivity |].
    intros fuel post acc.
    change (len (@nil byte)) with 0.
    now rewrite Z.add_0_r, app_nil_r.
  - destruct (framed_encoding r Hr) as (tail & Hb & Hlen).
    set (b := big_endian 3 (IPSPatchRecord.offset r) ++ tail) in *.
    clearbody b.
    destruct (IH (pre ++ b)) as (body & Henc & Hfive & Hdec).
    exists (b ++ body).
    change (length (r :: rs)) with (S (length rs)).
    split.
    { cbn [to_bytes_loop]. rewrite Hb. cbn [bind].
      now rewrite Henc, <- app_assoc. }
    pose proof (len_record_ge_5 r).
    split; [rewrite len_app; lia |].
    intros fuel post acc.
    rewrite <- (app_assoc b body post).
    change (S (length rs) + fuel)%nat with (S (length rs + fuel)).
    rewrite (loop_decodes_record r b pre (body ++ post) acc _ Hr Hb).
    specialize (Hdec fuel post (acc ++ [r])).
    rewrite <- !app_assoc in Hdec. rewrite len_app in Hdec.
    change ([r] ++ rs) with (r :: rs) in Hdec.
    rewrite Hdec, len_app.
    f_equal; lia.
Qed.

(** A record at the offset [0x454F46] is read back as the end marker. *)
Lemma record_at_EOF_offset_lost :
  valid_record (IPSPatchRecord.Build 4542278 [x41] 0) /\
  to_bytes (Build [IPSPatchRecord.Build 4542278 [x41] 0])
  = Ok (PATCH ++ [x45; x4f; x46; x00; x01; x41] ++ EOF) /\
  from_bytes (PATCH ++ [x45; x4f; x46; x00; x01; x41] ++ EOF)
  = Ok (Build []).
Proof. repeat split. Qed.

(** The run of an RLE record is written out in full by [to_bytes], but
    one byte of it is read by [from_bytes]. *)
Lemma rle_run_not_decoded :
  valid_record (IPSPatchRecord.Build 0 [x41] 2) /\
  to_bytes (Build [IPSPatchRecord.Build 0 [x41] 2])
  = Ok (PATCH ++ [x00; x00; x00; x00; x00; x00; x02; x41; x41] ++ EOF) /\
  IPSPatchRecord.__len__ (IPSPatchRecord.Build 0 [x41] 2) = 8 /\
  from_bytes (PATCH ++ [x00; x00; x00; x00; x00; x00; x02; x41; x41] ++ EOF)
  = Raise invalid_format.
Proof. repeat split. Qed.

(** C2, in the form that holds of the code.
    For every patch whose records are framed (valid, not
    at the offset [0x454F46] whose bytes are those of the end marker, and
    RLE only with a run of length one), [to_bytes] succeeds, [from_bytes]
    applied to its result returns the patch, record for record, and the
    length [__len__] by which the cursor advances over a record is the
    length of the encoding of that record. *)
Theorem patch_roundtrip (p : IPSPatch.t) :
  Forall framed (records p) ->
  exists b,
    to_bytes p = Ok b /\
    from_bytes b = Ok p /\
    Forall (fun r => exists e, IPSPatchRecord.to_bytes r = Ok e /\
                               len e = IPSPatchRecord.__len__ r)
           (records p).
Proof.
  destruct p as [rs]; cbn [records]; intros Hrs.
  destruct (loop_decodes_records rs Hrs PATCH)
    as (body & Henc & Hfive & Hdec).
  exists ((PATCH ++ body) ++ EOF). split; [| split].
  - unfold to_bytes; cbn [records]. now rewrite Henc.
  - unfold from_bytes; cbv zeta.
    change (0 + len PATCH) with (len PATCH).
    rewrite <- app_assoc, slice_app_l.
    replace (bytes_eqb PATCH PATCH) with true by reflexivity.
    cbn [negb].
    assert (Hl : (length rs <= length (PATCH ++ body ++ EOF))%nat).
    { rewrite !length_app. unfold len in Hfive. lia. }
    replace (length (PATCH ++ body ++ EOF))
      with (length rs + (length (PATCH ++ body ++ EOF) - length rs))%nat
      by lia.
    rewrite Hdec, loop_unfold.
    rewrite (app_assoc PATCH body EOF), <- len_app.
    rewrite slice_app_r0 by (rewrite len_EOF; lia).
    rewrite slice_all by lia.
    reflexivity.
  - eapply Forall_impl; [| exact Hrs].
    intros r Hr. destruct (framed_encoding r Hr) as (tail & Hb & Hlen).
    eauto.
Qed.

Lemma patch_roundtrip_witness :
  Forall framed
         (records (Build [IPSPatchRecord.Build 1 [x01; x01] 0;
                          IPSPatchRecord.Build 9 [x41] 1])) /\
  exists b,
    to_bytes (Build [IPSPatchRecord.Build 1 [x01; x01] 0;
                     IPSPatchRecord.Build 9 [x41] 1]) = Ok b /\
    from_bytes b = Ok (Build [IPSPatchRecord.Build 1 [x01; x01] 0;
                              IPSPatchRecord.Build 9 [x41] 1]).
Proof.
  assert (H : Forall framed
                (records (Build [IPSPatchRecord.Build 1 [x01; x01] 0;
                                 IPSPatchRecord.Build 9 [x41] 1]))).
  { repeat constructor; try discriminate. }
  split; [exact H |].
  destruct (patch_roundtrip _ H) as (b & Hb & Hd & _).
  exists b; split; assumption.
Defined.

(** *** Truncated spans *)

(** The decoder returns a record for a span cut short. *)
Lemma truncated_span_decoded :
  truncated [x00; x00; x01; x00; x05; x41] /\
  IPSPatchRecord.from_bytes [x00; x00; x01; x00; x05; x41]
  = Ok (IPSPatchRecord.Build 1 [x41] 0).
Proof. split; reflexivity. Qed.

(** The record decoded from a truncated span is as long as the span, up
    to two bytes. *)
Lemma truncated_cursor (span : bytes) (r : IPSPatchRecord.t) :
  truncated span -> IPSPatchRecord.from_bytes span = Ok r ->
  len span - IPSPatchRecord.__len__ r < 3.
Proof.
  unfold truncated, declared_length; cbv zeta; consts.
  change (3 + 2) with 5.
  pose proof (len_record_ge_5 r) as H5.
  destruct (len span <? 5) eqn:E5; [apply Z.ltb_lt in E5; lia |].
  apply Z.ltb_ge in E5.
  unfold IPSPatchRecord.from_bytes; cbv zeta; consts.
  change (0 + 3 + 2) with 5; change (0 + 3) with 3.
  destruct (int_from_bytes (slice span 3 5) >? 0) eqn:Es.
  - intros Ht Hr. apply init_inv in Hr as (-> & _).
    clear H5.
    unfold IPSPatchRecord.__len__, IPSPatchRecord.is_rle.
    cbn [IPSPatchRecord.rle_size IPSPatchRecord.data].
    change (0 >? 0) with false; cbv iota; consts.
    rewrite Z.gtb_ltb in Es; apply Z.ltb_lt in Es.
    rewrite len_slice by lia. lia.
  - intros Ht _. lia.
Qed.

Lemma loop_short_tail (fuel : nat) (data : bytes) (i : Z)
      (acc : list IPSPatchRecord.t) :
  0 <= i -> len data - i < 3 ->
  from_bytes_loop (S fuel) data i acc = Raise invalid_format.
Proof.
  intros Hi Hl. rewrite loop_unfold.
  replace (bytes_eqb (slice data i (i + len EOF)) EOF) with false.
  2:{ symmetry; apply bytes_eqb_neq; intros E.
      apply (f_equal len) in E.
      rewrite len_slice, len_EOF in E by (rewrite ?len_EOF; lia).
      lia. }
  destruct (len (slice_from data i) =? 0); [reflexivity |].
  destruct (from_bytes_total (slice_from data i)) as [r Hr].
  rewrite Hr; cbn [bind].
  pose proof (len_record_ge_5 r).
  apply loop_past_end; lia.
Qed.

(** At a truncated span that does not start with the end marker, the
    loop raises. *)
Lemma loop_truncated (fuel : nat) (data : bytes) (i : Z)
      (acc : list IPSPatchRecord.t) :
  0 <= i -> truncated (slice_from data i) ->
  slice data i (i + len EOF) <> EOF ->
  from_bytes_loop (S (S fuel)) data i acc = Raise invalid_format.
Proof.
  intros Hi Ht Hne. rewrite loop_unfold.
  replace (bytes_eqb (slice data i (i + len EOF)) EOF) with false
    by (symmetry; now apply bytes_eqb_neq).
  destruct (len (slice_from data i) =? 0); [reflexivity |].
  destruct (from_bytes_total (slice_from data i)) as [r Hr].
  rewrite Hr; cbn [bind].
  pose proof (truncated_cursor _ r Ht Hr) as Hc.
  pose proof (len_record_ge_5 r).
  unfold slice_from in Hc.
  rewrite len_slice in Hc by (pose proof (len_nonneg data); lia).
  apply loop_short_tail; lia.
Qed.

(** After the header and the encodings of framed records, a truncated
    span that does not start with the end marker makes decoding raise. *)
Lemma truncated_after_framed (span : bytes) :
  truncated span -> slice span 0 (len EOF) <> EOF ->
  forall (rs : list IPSPatchRecord.t) (body : bytes),
    Forall framed rs -> to_bytes_loop rs PATCH = Ok body ->
    from_bytes (body ++ span) = Raise invalid_format.
Proof.
  intros Ht Hne rs body Hrs Hbody.
  destruct (loop_decodes_records rs Hrs PATCH)
    as (body' & Henc & Hfive & Hdec).
  assert (body = PATCH ++ body') by congruence; subst body.
  unfold from_bytes; cbv zeta.
  change (0 + len PATCH) with (len PATCH).
  rewrite <- app_assoc, slice_app_l.
  replace (bytes_eqb PATCH PATCH) with true by reflexivity.
  cbn [negb].
  assert (Hl : (length rs + 2 <= length (PATCH ++ body' ++ span))%nat).
  { rewrite !length_app. change (length PATCH) with 5%nat.
    unfold len in Hfive. lia. }
  destruct (length (PATCH ++ body' ++ span) - length rs)%nat
    as [| [| fuel]] eqn:Ef; try lia.
  replace (length (PATCH ++ body' ++ span))
    with (length rs + S (S fuel))%nat by lia.
  rewrite Hdec; cbn [bind].
  rewrite (app_assoc PATCH body' span), <- len_app.
  replace (from_bytes_loop (S (S fuel)) ((PATCH ++ body') ++ span)
                           (len (PATCH ++ body')) ([] ++ rs))
    with (@Raise (list IPSPatchRecord.t) invalid_format);
    [reflexivity |].
  symmetry; apply loop_truncated.
  - apply len_nonneg.
  - now rewrite slice_from_app_r0.
  - rewrite slice_app_r0 by (rewrite len_EOF; lia). assumption.
Qed.

(** A state of the loop is reached from the start by a number of
    iterations, whatever the budget that is left. *)
Lemma cursor_at_loop (data : bytes) (i : Z) (acc : list IPSPatchRecord.t) :
  cursor_at data i acc ->
  5 <= i /\
  exists k, forall fuel,
      from_bytes_loop (k + fuel) data (len PATCH) []
      = from_bytes_loop fuel data i acc.
Proof.
  induction 1 as [| i acc r Hcur [Hi (k & Hk)] Hne Hview Hr].
  - split; [rewrite len_PATCH; lia |]. exists 0%nat. reflexivity.
  - pose proof (len_record_ge_5 r). split; [lia |].
    exists (S k). intros fuel.
    replace (S k + fuel)%nat with (k + S fuel)%nat by lia.
    rewrite Hk, loop_unfold.
    replace (bytes_eqb (slice data i (i + len EOF)) EOF) with false
      by (symmetry; now apply bytes_eqb_neq).
    replace (len (slice_from data i) =? 0) with false
      by (symmetry; now apply Z.eqb_neq).
    now rewrite Hr.
Qed.

Lemma slice_of_slice_from {A} (l : list A) (i j : Z) :
  0 <= i -> 0 <= j -> slice (slice_from l i) 0 j = slice l i (i + j).
Proof.
  intros Hi Hj. rewrite slice_from_nonneg by lia.
  rewrite !slice_nonneg by lia. cbn [Z.to_nat skipn].
  do 2 f_equal; lia.
Qed.

(** C4, in the form that holds of the code.
    For every span shorter than its declared lengths require,
    [IPSPatchRecord.from_bytes] does not fail: slices are clipped to the
    span and a record is built from the bytes that are there.  The
    truncation is detected by [IPSPatch.from_bytes]: on every buffer
    that starts with the header, whenever the cursor of the decoding
    loop, after any number of decoded records, stands at the start of
    such a span and the span does not start with the end marker,
    decoding the buffer raises [ValueError]. *)
Theorem truncated_record_decode (span : bytes) :
  truncated span ->
  (exists r, IPSPatchRecord.from_bytes span = Ok r) /\
  (slice span 0 (len EOF) <> EOF ->
   forall (data : bytes) (i : Z) (acc : list IPSPatchRecord.t),
     slice data 0 (len PATCH) = PATCH ->
     cursor_at data i acc -> slice_from data i = span ->
     from_bytes data = Raise invalid_format).
Proof.
  intros Ht. split; [apply from_bytes_total |].
  intros Hne data i acc Hhdr Hcur Hspan.
  destruct (cursor_at_loop data i acc Hcur) as (Hi & k & Hk).
  unfold from_bytes; cbv zeta.
  change (0 + len PATCH) with (len PATCH).
  rewrite Hhdr.
  replace (bytes_eqb PATCH PATCH) with true by reflexivity.
  cbn [negb].
  assert (Hraise : from_bytes_loop (S (S (length data))) data i acc
                   = Raise invalid_format).
  { apply loop_truncated.
    - lia.
    - now rewrite Hspan.
    - rewrite <- slice_of_slice_from, Hspan by (rewrite ?len_EOF; lia).
      assumption. }
  rewrite <- Hk in Hraise.
  rewrite (loop_fuel_mono (length data) (k + S (S (length data))))
    in Hraise.
  - now rewrite Hraise.
  - lia.
  - apply loop_terminates; rewrite len_PATCH; unfold len; lia.
Qed.

Lemma truncated_record_decode_witness :
  truncated [x07; x00; x01; x42; x45; x4f; x46] /\
  from_bytes (PATCH ++ [x00; x00; x01; x00; x00; x00; x05; xaa]
                ++ [x07; x00; x01; x42; x45; x4f; x46])
  = Raise invalid_format.
Proof.
  assert (H : truncated [x07; x00; x01; x42; x45; x4f; x46])
    by reflexivity.
  split; [exact H |].
  refine (proj2 (truncated_record_decode _ H) _
                (PATCH ++ [x00; x00; x01; x00; x00; x00; x05; xaa]
                   ++ [x07; x00; x01; x42; x45; x4f; x46])
                13 [IPSPatchRecord.Build 1 [xaa] 5] eq_refl _ eq_refl).
  - discriminate.
  - refine (cursor_step
              (PATCH ++ [x00; x00; x01; x00; x00; x00; x05; xaa]
                 ++ [x07; x00; x01; x42; x45; x4f; x46])
              (len PATCH) [] (IPSPatchRecord.Build 1 [xaa] 5)
              (cursor_start _) _ _ eq_refl);
      discriminate.
Defined.

(** Where the cursor stands matters: after a span whose RLE tail has
    run length 0 the cursor moves on by six bytes, not eight, and the
    bytes that follow are read from there. *)
Lemma cursor_short_of_truncated_span :
  from_bytes (PATCH ++ [x00; x00; x01; x00; x00; x00; x00; xaa]
                ++ [x07; x00; x01; x42; x45; x4f; x46])
  = Ok (Build [IPSPatchRecord.Build 1 [xaa] 0;
               IPSPatchRecord.Build 43527 [x42] 0]).
Proof. reflexivity. Qed.

End CodecFacts.

(* ================================================================== *)
(** * The patch container: diff and application *)

Module DiffFacts.
Import PyFacts RecordFacts.
Import IPSPatch.

(** *** The scan [find_first] *)

(** Behind its last position the scan returns its default. *)
Lemma find_first_stop (src dest : bytes) (start end_ : Z)
      (comp : byte -> byte -> bool) :
  0 <= end_ <= start -> find_first src dest start end_ comp = end_.
Proof.
  intros H; unfold find_first.
  now rewrite (slice_backwards src) by lia.
Qed.

(** Where one of the buffers has no byte the scan returns its default. *)
Lemma find_first_none (src dest : bytes) (start end_ : Z)
      (comp : byte -> byte -> bool) :
  0 <= start -> 0 <= end_ ->
  nth_error src (Z.to_nat start) = None \/
  nth_error dest (Z.to_nat start) = None ->
  find_first src dest start end_ comp = end_.
Proof.
  intros Hs He [H | H]; unfold find_first.
  - now rewrite (slice_none src) by assumption.
  - rewrite (slice_none dest) by assumption.
    now destruct (slice src start end_).
Qed.

(** Where both buffers have a byte the scan tests the pair and moves on
    by one position. *)
Lemma find_first_step (src dest : bytes) (start end_ : Z)
      (comp : byte -> byte -> bool) (a b : byte) :
  0 <= start < end_ ->
  nth_error src (Z.to_nat start) = Some a ->
  nth_error dest (Z.to_nat start) = Some b ->
  find_first src dest start end_ comp
  = if comp a b then start
    else find_first src dest (start + 1) end_ comp.
Proof.
  intros H Ha Hb; unfold find_first.
  rewrite (slice_cons src start end_ a), (slice_cons dest start end_ b)
    by assumption.
  cbn [combine enumerate filter fst snd].
  now destruct (comp a b).
Qed.

(** Induction along the positions that a scan visits. *)
Lemma scan_ind (end_ : Z) (P : Z -> Prop) :
  (forall start, end_ <= start -> P start) ->
  (forall start, start < end_ -> P (start + 1) -> P start) ->
  forall start, P start.
Proof.
  intros Hstop Hstep start.
  remember (Z.to_nat (end_ - start)) as n eqn:En.
  revert start En; induction n as [| n IH]; intros start En.
  - apply Hstop; lia.
  - apply Hstep; [lia |]. apply IH; lia.
Qed.

Lemma find_first_range (src dest : bytes) (end_ : Z)
      (comp : byte -> byte -> bool) (start : Z) :
  0 <= start <= end_ ->
  start <= find_first src dest start end_ comp <= end_.
Proof.
  pattern start; apply (scan_ind end_); clear start.
  - intros start Hge Hs. rewrite find_first_stop by lia. lia.
  - intros start Hlt IH Hs.
    destruct (nth_error src (Z.to_nat start)) as [a |] eqn:Ea;
      [| rewrite find_first_none by (auto; lia); lia].
    destruct (nth_error dest (Z.to_nat start)) as [b |] eqn:Eb;
      [| rewrite find_first_none by (auto; lia); lia].
    rewrite (find_first_step src dest start end_ comp a b) by (auto; lia).
    destruct (comp a b); lia.
Qed.

(** A scan for equal bytes that starts where the buffers differ, or
    where [dest] has no byte, moves forward. *)
Lemma find_first_eq_progress (src dest : bytes) (start end_ : Z) :
  0 <= start < end_ ->
  differ_at src dest start \/ nth_error dest (Z.to_nat start) = None ->
  start < find_first src dest start end_ operator_eq.
Proof.
  intros Hs [(a & b & Ha & Hb & Hab) | Hn].
  - rewrite (find_first_step src dest start end_ _ a b) by assumption.
    unfold operator_eq.
    destruct (Byte.eqb a b) eqn:E;
      [apply Byte.byte_dec_bl in E; contradiction |].
    pose proof (find_first_range src dest end_ operator_eq (start + 1)).
    unfold operator_eq in *. lia.
  - rewrite find_first_none by (auto; lia). lia.
Qed.

(** A scan for different bytes stops short of its bound only where the
    buffers differ. *)
Lemma find_first_ne_hit (src dest : bytes) (end_ : Z) (start : Z) :
  0 <= end_ -> 0 <= start ->
  find_first src dest start end_ operator_ne < end_ ->
  differ_at src dest (find_first src dest start end_ operator_ne).
Proof.
  intros He.
  pattern start; apply (scan_ind end_); clear start.
  - intros start Hge Hs Hlt.
    rewrite find_first_stop in Hlt by lia. lia.
  - intros start Hlt IH Hs Hhit.
    destruct (nth_error src (Z.to_nat start)) as [a |] eqn:Ea;
      [| rewrite find_first_none in Hhit by (auto; lia); lia].
    destruct (nth_error dest (Z.to_nat start)) as [b |] eqn:Eb;
      [| rewrite find_first_none in Hhit by (auto; lia); lia].
    rewrite (find_first_step src dest start end_ _ a b) in Hhit |- *
      by (auto; lia).
    unfold operator_ne in *.
    destruct (Byte.eqb a b) eqn:E; cbn [negb] in *.
    + apply IH; [lia | assumption].
    + exists a, b. repeat split; try assumption.
      now apply Byte.eqb_false.
Qed.

(** Up to the position where a scan for different bytes stops, the two
    buffers agree. *)
Lemma find_first_ne_agree (src dest : bytes) (end_ : Z) (start : Z) :
  0 <= start <= end_ -> end_ <= len src -> end_ <= len dest ->
  slice src start (find_first src dest start end_ operator_ne)
  = slice dest start (find_first src dest start end_ operator_ne).
Proof.
  intros Hs Hsrc Hdest; revert Hs.
  pattern start; apply (scan_ind end_); clear start.
  - intros start Hge Hs. rewrite find_first_stop by lia.
    now rewrite !slice_backwards by lia.
  - intros start Hlt IH Hs.
    destruct (nth_error src (Z.to_nat start)) as [a |] eqn:Ea.
    2:{ apply nth_error_None in Ea. unfold len in *; lia. }
    destruct (nth_error dest (Z.to_nat start)) as [b |] eqn:Eb.
    2:{ apply nth_error_None in Eb. unfold len in *; lia. }
    rewrite (find_first_step src dest start end_ _ a b) by (auto; lia).
    unfold operator_ne.
    destruct (Byte.eqb a b) eqn:E; cbn [negb].
    + apply Byte.byte_dec_bl in E; subst b.
      pose proof (find_first_range src dest end_ operator_ne (start + 1)).
      unfold operator_ne in *.
      rewrite (slice_cons src start _ a), (slice_cons dest start _ a)
        by (auto; lia).
      f_equal. apply IH; lia.
    + now rewrite !slice_backwards by lia.
Qed.

(** *** Applying what [from_diff] emits *)

Lemma apply_loop_snoc (acc : list IPSPatchRecord.t) (r : IPSPatchRecord.t)
      (buf : bytes) :
  apply_loop (acc ++ [r]) buf = IPSPatchRecord.apply r (apply_loop acc buf).
Proof. unfold apply_loop; now rewrite fold_left_app. Qed.

(** A literal record applied inside the buffer or at its end. *)
Lemma apply_literal (i : Z) (d buf : bytes) :
  0 <= i ->
  IPSPatchRecord.apply (IPSPatchRecord.Build i d 0) buf
  = slice buf 0 i ++ d ++ slice_from buf (i + len d).
Proof.
  intros Hi. unfold IPSPatchRecord.apply, IPSPatchRecord.size.
  change (IPSPatchRecord.is_rle (IPSPatchRecord.Build i d 0)) with false.
  cbv iota; cbn [IPSPatchRecord.offset IPSPatchRecord.data].
  apply set_slice_eq; [assumption | apply len_nonneg].
Qed.

(** The first loop, when [dest] is at least as long as [src]: the records
    emitted up to the cursor [i] turn [src] into [dest] on the positions
    before [i]. *)
Lemma loop1_patches (fuel : nat) :
  forall (src dest : bytes) (i : Z) (acc : list IPSPatchRecord.t),
    len src <= len dest -> len dest <= OFFSET_MAX + 1 ->
    0 <= i <= len src -> len src - i <= Z.of_nat fuel ->
    (i < len src -> differ_at src dest i) ->
    apply_loop acc src = slice dest 0 i ++ slice_from src i ->
    exists acc',
      from_diff_loop1 fuel src dest i i acc = Ok (len src, len src, acc') /\
      apply_loop acc' src = slice dest 0 (len src).
Proof.
  induction fuel as [| fuel IH];
    intros src dest i acc Hsd Hd Hi Hf Hdiff Hinv.
  - assert (i = len src) by lia; subst i.
    cbn [from_diff_loop1]; rewrite Z.ltb_irrefl.
    exists acc; split; [reflexivity |].
    rewrite Hinv, slice_from_empty by lia. apply app_nil_r.
  - cbn [from_diff_loop1]. destruct (i <? len src) eqn:E.
    2:{ apply Z.ltb_ge in E. assert (i = len src) by lia; subst i.
        exists acc; split; [reflexivity |].
        rewrite Hinv, slice_from_empty by lia. apply app_nil_r. }
    apply Z.ltb_lt in E. cbv zeta.
    set (diff_end :=
           find_first src dest i (Z.min (len src) (i + SIZE_MAX)) operator_eq).
    assert (Hde : i < diff_end <= Z.min (len src) (i + SIZE_MAX)).
    { split.
      - apply find_first_eq_progress; [consts; lia | left; auto].
      - apply find_first_range; consts; lia. }
    consts.
    assert (Hld : len (slice dest i diff_end) = diff_end - i)
      by (rewrite len_slice by lia; lia).
    rewrite init_ok by (consts; lia).
    cbn [bind].
    set (i' := find_first src dest diff_end (len src) operator_ne).
    assert (Hi' : diff_end <= i' <= len src)
      by (apply find_first_range; lia).
    apply IH; try lia.
    + intros Hlt. apply find_first_ne_hit; lia.
    + rewrite apply_loop_snoc, Hinv, apply_literal by lia.
      assert (Hl0 : len (slice dest 0 i) = i)
        by (rewrite len_slice by lia; lia).
      rewrite (slice_app_l_len _ _ i Hl0), Hld.
      rewrite (slice_from_app_r_len _ _ i (diff_end - i) Hl0) by lia.
      rewrite slice_from_slice_from by lia.
      replace (i + (diff_end - i)) with diff_end by lia.
      rewrite (slice_from_split src diff_end i') by lia.
      unfold i' at 1.
      rewrite find_first_ne_agree by lia. fold i'.
      rewrite !app_assoc, <- !slice_split by lia.
      reflexivity.
Qed.

(** The second loop: the tail of [dest] is appended chunk by chunk. *)
Lemma loop2_patches (fuel : nat) :
  forall (src dest : bytes) (i : Z) (acc : list IPSPatchRecord.t),
    len dest <= OFFSET_MAX + 1 ->
    0 <= i <= len dest -> len dest - i <= Z.of_nat fuel ->
    apply_loop acc src = slice dest 0 i ->
    exists acc',
      from_diff_loop2 fuel dest i i acc = Ok acc' /\
      apply_loop acc' src = dest.
Proof.
  induction fuel as [| fuel IH]; intros src dest i acc Hd Hi Hf Hinv.
  - assert (i = len dest) by lia; subst i.
    cbn [from_diff_loop2]; rewrite Z.ltb_irrefl.
    exists acc; split; [reflexivity |].
    rewrite Hinv. apply slice_all; lia.
  - cbn [from_diff_loop2]. destruct (i <? len dest) eqn:E.
    2:{ apply Z.ltb_ge in E. assert (i = len dest) by lia; subst i.
        exists acc; split; [reflexivity |].
        rewrite Hinv. apply slice_all; lia. }
    apply Z.ltb_lt in E. cbv zeta. consts.
    set (diff_end := Z.min (len dest) (i + 65535)).
    assert (Hld : len (slice dest i diff_end) = diff_end - i)
      by (rewrite len_slice by lia; lia).
    rewrite init_ok by (consts; lia).
    cbn [bind].
    apply IH; try lia.
    rewrite apply_loop_snoc, Hinv, apply_literal by lia.
    assert (Hl0 : len (slice dest 0 i) = i)
      by (rewrite len_slice by lia; lia).
    rewrite slice_all by lia.
    rewrite slice_from_empty by lia.
    rewrite app_nil_r, <- slice_split by lia.
    reflexivity.
Qed.

(** Nothing in the format shortens a buffer: for a target shorter than
    the source the scan stops at the end of the target. *)
Lemma from_diff_shorter_target :
  from_diff [x41; x42] [x41] = Ok (Build []) /\
  apply (Build []) [x41; x42] false = ([x41; x42], Some [x41; x42]) /\
  [x41; x42] <> [x41].
Proof. repeat split. discriminate. Qed.

(** C1, in the form that holds of the code.
    For all buffers [src] and [dest] with [dest] at least
    as long as [src] and at most [2^24] bytes long (so that every offset
    fits its field), [from_diff] returns a patch, and applying that patch
    to [src] yields exactly [dest], on a copy as well as in place; empty
    buffers and identical buffers are included, and the bytes of [dest]
    past the end of [src] are all covered by records. *)
Theorem from_diff_apply (src dest : bytes) :
  len src <= len dest -> len dest <= OFFSET_MAX + 1 ->
  exists patch,
    from_diff src dest = Ok patch /\
    apply patch src false = (src, Some dest) /\
    apply patch src true = (dest, None).
Proof.
  intros Hsd Hd. unfold from_diff; cbv zeta.
  set (i := find_first src dest 0 (len src) operator_ne).
  pose proof (len_nonneg src) as Hs0.
  assert (Hi : 0 <= i <= len src) by (apply find_first_range; lia).
  destruct (loop1_patches (length src) src dest i [] Hsd Hd Hi)
    as (acc1 & Hloop1 & Happ1).
  - unfold len; lia.
  - intros Hlt. apply find_first_ne_hit; lia.
  - cbn [apply_loop fold_left].
    rewrite <- (slice_whole src i) at 1 by lia.
    assert (E : slice src 0 i = slice dest 0 i)
      by (apply find_first_ne_agree; lia).
    now rewrite E.
  - rewrite Hloop1; cbn [bind].
    destruct (loop2_patches (length dest) src dest (len src) acc1)
      as (acc2 & Hloop2 & Happ2); try assumption; try lia.
    + unfold len; lia.
    + rewrite Hloop2; cbn [bind].
      exists (Build acc2). unfold apply; cbn [records].
      rewrite Happ2. repeat split.
Qed.

Lemma from_diff_apply_witness :
  len [x41; x42] <= len [x41; x43; x44; x45] /\
  len [x41; x43; x44; x45] <= OFFSET_MAX + 1 /\
  exists patch,
    from_diff [x41; x42] [x41; x43; x44; x45] = Ok patch /\
    apply patch [x41; x42] false
    = ([x41; x42], Some [x41; x43; x44; x45]).
Proof.
  assert (H1 : len [x41; x42] <= len [x41; x43; x44; x45])
    by (vm_compute; discriminate).
  assert (H2 : len [x41; x43; x44; x45] <= OFFSET_MAX + 1)
    by (vm_compute; discriminate).
  refine (conj H1 (conj H2 _)).
  destruct (from_diff_apply _ _ H1 H2) as (patch & Hp & Ha & _).
  exists patch; split; assumption.
Defined.

(** C8 (end-to-end example).  For the source [00 00 00 00 00] and the
    target [00 01 01 00 00], [from_diff] produces exactly one literal
    record, at offset 1 with data [01 01]; encoding that patch yields
    ["PATCH"], [00 00 01], [00 02], [01 01], ["EOF"]; and applying the
    patch to the source yields the target. *)
Theorem end_to_end_example :
  from_diff [x00; x00; x00; x00; x00] [x00; x01; x01; x00; x00]
  = Ok (Build [IPSPatchRecord.Build 1 [x01; x01] 0]) /\
  to_bytes (Build [IPSPatchRecord.Build 1 [x01; x01] 0])
  = Ok (PATCH ++ [x00; x00; x01] ++ [x00; x02] ++ [x01; x01] ++ EOF) /\
  apply (Build [IPSPatchRecord.Build 1 [x01; x01] 0])
        [x00; x00; x00; x00; x00] false
  = ([x00; x00; x00; x00; x00], Some [x00; x01; x01; x00; x00]).
Proof. repeat split. Qed.

(** *** The order of the records that [from_diff] emits *)

Lemma sorted_snoc {A} (R : A -> A -> Prop) (l : list A) (x : A) :
  StronglySorted R l -> Forall (fun a => R a x) l ->
  StronglySorted R (l ++ [x]).
Proof.
  induction 1 as [| a l Hl IH Ha]; intros Hx; simpl.
  - repeat constructor.
  - inversion Hx; subst. constructor; [now apply IH |].
    apply Forall_app; split; [assumption | now constructor].
Qed.

Lemma sorted_weaken {A} (R S : A -> A -> Prop) (l : list A) :
  (forall a b, R a b -> S a b) -> StronglySorted R l -> StronglySorted S l.
Proof.
  intros HRS; induction 1 as [| a l Hl IH Ha]; constructor.
  - assumption.
  - eapply Forall_impl; [| exact Ha]. intros b Hb; now apply HRS.
Qed.

Lemma sorted_pairs {A} (R : A -> A -> Prop) (l : list A) :
  StronglySorted R l -> ForallOrdPairs R l.
Proof. induction 1; constructor; assumption. Qed.

Lemma init_cases (o : Z) (d : bytes) (r : Z) :
  IPSPatchRecord.__init__ o d r = Ok (IPSPatchRecord.Build o d r) \/
  exists e, IPSPatchRecord.__init__ o d r = Raise e.
Proof.
  unfold IPSPatchRecord.__init__.
  destruct (negb ((0 <=? o) && (o <=? OFFSET_MAX))); [right; eauto |].
  destruct (len d >? SIZE_MAX); [right; eauto |].
  destruct (negb ((0 <=? r) && (r <=? RLE_SIZE_MAX))); [right; eauto |].
  now left.
Qed.

(** Emitting the literal record for the run [i .. diff_end) and moving the
    cursor to [i'] keeps the records ordered and before the cursor. *)
Lemma emitted_before_snoc (i diff_end i' : Z) (dest : bytes)
      (acc : list IPSPatchRecord.t) :
  0 <= i < diff_end -> diff_end <= i' ->
  emitted_before i acc ->
  emitted_before i'
    (acc ++ [IPSPatchRecord.Build i (slice dest i diff_end) 0]).
Proof.
  intros Hi Hi' [Hsort Hall].
  set (r := IPSPatchRecord.Build i (slice dest i diff_end) 0).
  assert (Hend : range_end r <= diff_end).
  { unfold range_end, IPSPatchRecord.applied_size, IPSPatchRecord.size.
    change (IPSPatchRecord.is_rle r) with false; cbv iota.
    cbn [r IPSPatchRecord.offset IPSPatchRecord.data].
    pose proof (len_slice_le dest i diff_end). lia. }
  split.
  - apply sorted_snoc; [assumption |].
    eapply Forall_impl; [| exact Hall].
    intros a [Ha1 Ha2]; unfold ordered_before.
    change (IPSPatchRecord.offset r) with i. lia.
  - apply Forall_app; split.
    + eapply Forall_impl; [| exact Hall]. intros a [Ha1 Ha2]; lia.
    + constructor; [| constructor].
      change (IPSPatchRecord.offset r) with i. lia.
Qed.

Lemma loop1_ordered (fuel : nat) :
  forall (src dest : bytes) (i : Z) (acc : list IPSPatchRecord.t),
    0 <= i <= len src -> len src - i <= Z.of_nat fuel ->
    (i < len src -> differ_at src dest i) ->
    emitted_before i acc ->
    match from_diff_loop1 fuel src dest i i acc with
    | Ok (i', diff_start, acc') =>
        i' = len src /\ diff_start = len src /\
        emitted_before (len src) acc'
    | Raise _ => True
    | OutOfFuel => False
    end.
Proof.
  induction fuel as [| fuel IH]; intros src dest i acc Hi Hf Hdiff Hinv.
  - assert (i = len src) by lia; subst i.
    cbn [from_diff_loop1]; rewrite Z.ltb_irrefl. auto.
  - cbn [from_diff_loop1]. destruct (i <? len src) eqn:E.
    2:{ apply Z.ltb_ge in E. assert (i = len src) by lia; subst i. auto. }
    apply Z.ltb_lt in E. cbv zeta.
    set (diff_end :=
           find_first src dest i (Z.min (len src) (i + SIZE_MAX)) operator_eq).
    assert (Hde : i < diff_end <= Z.min (len src) (i + SIZE_MAX)).
    { split.
      - apply find_first_eq_progress; [consts; lia | left; auto].
      - apply find_first_range; consts; lia. }
    destruct (init_cases i (slice dest i diff_end) 0) as [E1 | [e E1]];
      rewrite E1; cbn [bind]; [| exact I].
    set (i' := find_first src dest diff_end (len src) operator_ne).
    assert (Hi' : diff_end <= i' <= len src)
      by (apply find_first_range; lia).
    apply IH; try lia.
    + intros Hlt. apply find_first_ne_hit; lia.
    + apply emitted_before_snoc; [lia | lia | assumption].
Qed.

Lemma loop2_ordered (fuel : nat) :
  forall (dest : bytes) (i : Z) (acc : list IPSPatchRecord.t),
    0 <= i -> len dest - i <= Z.of_nat fuel ->
    emitted_before i acc ->
    match from_diff_loop2 fuel dest i i acc with
    | Ok acc' => exists j, emitted_before j acc'
    | Raise _ => True
    | OutOfFuel => False
    end.
Proof.
  induction fuel as [| fuel IH]; intros dest i acc Hi Hf Hinv.
  - cbn [from_diff_loop2].
    replace (i <? len dest) with false by (symmetry; apply Z.ltb_ge; lia).
    eauto.
  - cbn [from_diff_loop2]. destruct (i <? len dest) eqn:E; [| eauto].
    apply Z.ltb_lt in E. cbv zeta. consts.
    set (diff_end := Z.min (len dest) (i + 65535)).
    destruct (init_cases i (slice dest i diff_end) 0) as [E1 | [e E1]];
      rewrite E1; cbn [bind]; [| exact I].
    apply IH; try lia.
    apply emitted_before_snoc; [lia | lia | assumption].
Qed.

Lemma from_diff_ordered (src dest : bytes) :
  match from_diff src dest with
  | Ok patch => exists j, emitted_before j (records patch)
  | Raise _ => True
  | OutOfFuel => False
  end.
Proof.
  unfold from_diff; cbv zeta.
  set (i := find_first src dest 0 (len src) operator_ne).
  pose proof (len_nonneg src) as Hs0.
  assert (Hi : 0 <= i <= len src) by (apply find_first_range; lia).
  assert (H1 : emitted_before i []) by (split; constructor).
  pose proof (loop1_ordered (length src) src dest i [] Hi) as L1.
  destruct (from_diff_loop1 (length src) src dest i i [])
    as [[[i1 d1] acc1] | e |]; cbn [bind].
  - destruct L1 as (-> & -> & Hinv); try assumption.
    + unfold len; lia.
    + intros Hlt. apply find_first_ne_hit; lia.
    + pose proof (loop2_ordered (length dest) dest (len src) acc1) as L2.
      destruct (from_diff_loop2 (length dest) dest (len src) (len src) acc1)
        as [acc2 | e |]; cbn [bind records].
      * apply L2; [lia | unfold len; lia | assumption].
      * exact I.
      * apply L2; [lia | unfold len; lia | assumption].
  - exact I.
  - apply L1; try assumption.
    + unfold len; lia.
    + intros Hlt. apply find_first_ne_hit; lia.
Qed.

(** C9 (order of the diff records).  For every pair of buffers,
    [from_diff] returns a patch or raises (it does not exhaust the budget
    of its loops), and the records of the patch it returns have strictly
    increasing offsets, and no two of their ranges
    [offset, offset + applied_size) overlap. *)
Theorem from_diff_records_ordered (src dest : bytes) :
  from_diff src dest <> OutOfFuel /\
  forall patch,
    from_diff src dest = Ok patch ->
    increasing_offsets (records patch) /\ non_overlapping (records patch).
Proof.
  pose proof (from_diff_ordered src dest) as H.
  split.
  - intros E; now rewrite E in H.
  - intros patch E; rewrite E in H. destruct H as (j & Hsort & _).
    split.
    + eapply sorted_weaken; [| exact Hsort]. intros a b [Hab _]; exact Hab.
    + apply sorted_pairs.
      eapply sorted_weaken; [| exact Hsort].
      intros a b [_ Hab]; left; exact Hab.
Qed.

Lemma from_diff_records_ordered_witness :
  from_diff [x00; x00; x00; x00] [x01; x00; x02; x00; x03; x04]
  = Ok (Build [IPSPatchRecord.Build 0 [x01] 0;
               IPSPatchRecord.Build 2 [x02] 0;
               IPSPatchRecord.Build 4 [x03; x04] 0]) /\
  increasing_offsets [IPSPatchRecord.Build 0 [x01] 0;
                      IPSPatchRecord.Build 2 [x02] 0;
                      IPSPatchRecord.Build 4 [x03; x04] 0] /\
  non_overlapping [IPSPatchRecord.Build 0 [x01] 0;
                   IPSPatchRecord.Build 2 [x02] 0;
                   IPSPatchRecord.Build 4 [x03; x04] 0].
Proof.
  split; [reflexivity |].
  exact (proj2 (from_diff_records_ordered
                  [x00; x00; x00; x00] [x01; x00; x02; x00; x03; x04])
               _ eq_refl).
Defined.

End DiffFacts.

(* ================================================================== *)
(** * More on single records *)

Module RecordExtras.
Import PyFacts RecordFacts IPSPatchRecord.

(** *** The constructor and the decoder *)

(** X1.
    The constructor builds the record with the fields it is given exactly
    when the offset is a 24-bit value, the data fits the 16-bit size field
    and the run length is a 16-bit value; otherwise it raises
    [ValueError]. *)
Theorem init_accepts_iff (o : Z) (d : bytes) (n : Z) (r : t) :
  (__init__ o d n = Ok r <->
   r = Build o d n /\
   0 <= o <= OFFSET_MAX /\ len d <= SIZE_MAX /\ 0 <= n <= RLE_SIZE_MAX) /\
  ((exists r', __init__ o d n = Ok r') \/
   (exists msg, __init__ o d n = Raise (ValueError msg))).
Proof.
  split.
  - split.
    + apply init_inv.
    + intros (-> & Ho & Hd & Hn). now apply init_ok.
  - unfold __init__.
    destruct (negb ((0 <=? o) && (o <=? OFFSET_MAX))); [right; eauto |].
    destruct (len d >? SIZE_MAX); [right; eauto |].
    destruct (negb ((0 <=? n) && (n <=? RLE_SIZE_MAX))); [right; eauto |].
    left; eauto.
Qed.

(** X2.
    Decoding a span never raises, whatever the span: the record it returns
    passes the checks of the constructor, and its offset is the number
    that the first three bytes of the span (or those there are) write in
    big-endian order. *)
Theorem from_bytes_constructible (view : bytes) :
  exists r,
    from_bytes view = Ok r /\ constructible r /\
    offset r = int_from_bytes (slice view 0 OFFSET_SIZE).
Proof.
  destruct (from_bytes_total view) as [r Hr].
  exists r; split; [assumption |]. split.
  - revert Hr; unfold from_bytes; cbv zeta.
    destruct (int_from_bytes _ >? 0); apply init_constructible.
  - revert Hr; unfold from_bytes; cbv zeta.
    destruct (int_from_bytes _ >? 0); intros H;
      apply init_inv in H as (-> & _); reflexivity.
Qed.

(** *** The length and the contents of an encoding *)

(** X3.
    The encoding of a record that the constructor built: a literal record
    takes the bytes that [__len__] reports; an RLE record with data takes
    [rle_size - 1] bytes more than [__len__] reports, as the fill byte is
    written [rle_size] times. *)
Theorem to_bytes_length (r : t) :
  constructible r ->
  exists b,
    to_bytes r = Ok b /\
    (is_rle r = false -> len b = __len__ r) /\
    (is_rle r = true -> data r <> [] ->
     len b = __len__ r + (rle_size r - 1)).
Proof.
  intros Hc. unfold __len__; consts.
  destruct (is_rle r) eqn:E.
  - rewrite (to_bytes_rle r Hc E). eexists; split; [reflexivity |].
    split; [discriminate |]. intros _ Hne.
    apply is_rle_true in E.
    rewrite !len_app, !len_big_endian, len_mul, len_slice by lia.
    change (len [x00; x00]) with 2.
    destruct (data r) as [| f d]; [contradiction |].
    replace (Z.min 1 (len (f :: d)) - Z.min 0 (len (f :: d))) with 1
      by (unfold len; simpl length; lia).
    lia.
  - rewrite (to_bytes_literal r Hc E). eexists; split; [reflexivity |].
    split; [| discriminate]. intros _.
    rewrite !len_app, !len_big_endian. lia.
Qed.

Lemma to_bytes_length_witness :
  constructible (Build 7 [x41] 3) /\
  exists b,
    to_bytes (Build 7 [x41] 3) = Ok b /\
    len b = __len__ (Build 7 [x41] 3) + (3 - 1).
Proof.
  assert (H : constructible (Build 7 [x41] 3)) by reflexivity.
  split; [exact H |].
  destruct (to_bytes_length _ H) as (b & Hb & _ & Hl).
  exists b; split; [exact Hb |].
  apply Hl; [reflexivity | discriminate].
Defined.

Lemma slice_app_within {A} (a b : list A) (i j : Z) :
  0 <= i -> 0 <= j <= len a -> slice (a ++ b) i j = slice a i j.
Proof.
  intros Hi Hj. rewrite !slice_nonneg by lia. unfold len in Hj.
  rewrite skipn_app, firstn_app.
  replace (Z.to_nat (j - i) - length (skipn (Z.to_nat i) a))%nat with 0%nat
    by (rewrite length_skipn; lia).
  simpl. apply app_nil_r.
Qed.

(** X4.
    A span that holds a whole record decodes to the same record when more
    bytes follow it. *)
Theorem from_bytes_ignores_rest (view post : bytes) :
  complete view -> from_bytes (view ++ post) = from_bytes view.
Proof.
  unfold complete, declared_length; cbv zeta; consts.
  change (3 + 2) with 5.
  destruct (len view <? 5) eqn:E5; [apply Z.ltb_lt in E5; lia |].
  apply Z.ltb_ge in E5.
  unfold from_bytes; cbv zeta; consts.
  change (0 + 3 + 2) with 5; change (0 + 3) with 3.
  rewrite !(slice_app_within view post 0 3) by lia.
  rewrite !(slice_app_within view post 3 5) by lia.
  destruct (int_from_bytes (slice view 3 5) >? 0) eqn:Es.
  - intros Hc. rewrite Z.gtb_ltb in Es; apply Z.ltb_lt in Es.
    now rewrite slice_app_within by lia.
  - intros Hc.
    now rewrite !(slice_app_within view post) by lia.
Qed.

Lemma from_bytes_ignores_rest_witness :
  complete [x00; x00; x01; x00; x02; x41; x42] /\
  from_bytes ([x00; x00; x01; x00; x02; x41; x42] ++ [x43; x44])
  = from_bytes [x00; x00; x01; x00; x02; x41; x42].
Proof.
  assert (H : complete [x00; x00; x01; x00; x02; x41; x42])
    by (vm_compute; discriminate).
  split; [exact H | exact (from_bytes_ignores_rest _ [x43; x44] H)].
Defined.

Lemma big_endian_int_from_bytes (b : bytes) :
  big_endian (length b) (int_from_bytes b) = b.
Proof.
  induction b as [| x b IH] using rev_ind; [reflexivity |].
  rewrite length_app, Nat.add_comm; cbn [length Nat.add big_endian].
  rewrite int_from_bytes_snoc.
  pose proof (int_of_byte_range x) as Hx.
  replace ((int_from_bytes b * 256 + int_of_byte x) / 256)
    with (int_from_bytes b)
    by (rewrite Z.div_add_l, Z.div_small by lia; lia).
  replace ((int_from_bytes b * 256 + int_of_byte x) mod 256)
    with (int_of_byte x)
    by (rewrite Z.add_comm, Z.mod_add, Z.mod_small by lia; lia).
  now rewrite IH, byte_of_int_of_byte.
Qed.

(** X5.
    Decoding then encoding gives the span back: for a span that holds a
    whole literal record (non-zero size field), the record decoded from
    it encodes to the bytes of the span that the record occupies. *)
Theorem to_bytes_from_bytes_literal (view : bytes) :
  complete view ->
  0 < int_from_bytes (slice view OFFSET_SIZE (OFFSET_SIZE + SIZE_SIZE)) ->
  exists r,
    from_bytes view = Ok r /\
    to_bytes r = Ok (slice view 0 (declared_length view)).
Proof.
  unfold complete, declared_length; cbv zeta; consts.
  change (3 + 2) with 5.
  destruct (len view <? 5) eqn:E5; [apply Z.ltb_lt in E5; lia |].
  apply Z.ltb_ge in E5.
  set (size := int_from_bytes (slice view 3 5)).
  intros Hc Hs.
  replace (size >? 0) with true in *
    by (symmetry; rewrite Z.gtb_ltb; apply Z.ltb_lt; lia).
  destruct (from_bytes_total view) as [r Hr].
  exists r; split; [assumption |].
  unfold from_bytes in Hr; cbv zeta in Hr; consts.
  change (0 + 3 + 2) with 5 in Hr; change (0 + 3) with 3 in Hr.
  fold size in Hr.
  replace (size >? 0) with true in Hr
    by (symmetry; rewrite Z.gtb_ltb; apply Z.ltb_lt; lia).
  pose proof (init_constructible _ _ _ _ Hr) as Hcon.
  apply init_inv in Hr as (-> & _).
  rewrite to_bytes_literal by (assumption || reflexivity).
  cbn [offset data].
  assert (L3 : length (slice view 0 3) = 3%nat).
  { pose proof (len_slice view 0 3) as H. unfold len in *. lia. }
  assert (L2 : length (slice view 3 5) = 2%nat).
  { pose proof (len_slice view 3 5) as H. unfold len in *. lia. }
  assert (Ld : len (slice view 5 (5 + size)) = size)
    by (rewrite len_slice by lia; lia).
  rewrite Ld. unfold size at 1.
  rewrite <- L3 at 1. rewrite <- L2 at 1.
  rewrite !big_endian_int_from_bytes.
  rewrite (slice_split view 0 3 (5 + size)) by lia.
  rewrite (slice_split view 3 5 (5 + size)) by lia.
  reflexivity.
Qed.

Lemma to_bytes_from_bytes_literal_witness :
  complete [x00; x00; x01; x00; x02; x41; x42; x43] /\
  exists r,
    from_bytes [x00; x00; x01; x00; x02; x41; x42; x43] = Ok r /\
    to_bytes r = Ok [x00; x00; x01; x00; x02; x41; x42].
Proof.
  assert (H : complete [x00; x00; x01; x00; x02; x41; x42; x43])
    by (vm_compute; discriminate).
  split; [exact H |].
  exact (to_bytes_from_bytes_literal _ H eq_refl).
Defined.

(** *** Applying a record *)

(** X6.
    A record whose range lies inside the buffer overwrites exactly that
    range: the length of the buffer and the bytes before and after the
    range are unchanged, and the range holds the bytes of the record. *)
Theorem apply_in_bounds (r : t) (buf : bytes) :
  constructible r -> (is_rle r = true -> data r <> []) ->
  range_end r <= len buf ->
  len (apply r buf) = len buf /\
  slice (apply r buf) 0 (offset r) = slice buf 0 (offset r) /\
  slice (apply r buf) (offset r) (range_end r) = payload r /\
  slice_from (apply r buf) (range_end r) = slice_from buf (range_end r).
Proof.
  intros Hc Hne Hend.
  pose proof (len_payload r Hne) as Hp.
  pose proof (applied_size_nonneg r) as Ha.
  pose proof (proj1 (constructible_iff r) Hc) as (Ho & _).
  unfold range_end in *.
  rewrite apply_no_gap by (assumption || lia).
  unfold range_end.
  assert (Hl : len (slice buf 0 (offset r)) = offset r)
    by (rewrite len_slice by lia; lia).
  assert (Ht : len (slice_from buf (offset r + applied_size r))
               = len buf - (offset r + applied_size r))
    by (unfold slice_from; rewrite len_slice by lia; lia).
  remember (slice buf 0 (offset r)) as pre eqn:Epre.
  remember (slice_from buf (offset r + applied_size r)) as post eqn:Epost.
  clear Epre Epost.
  repeat split.
  - rewrite !len_app. lia.
  - now apply slice_app_l_len.
  - rewrite <- Hl, <- Hp.
    rewrite slice_app_r0 by apply len_nonneg.
    apply slice_app_l.
  - rewrite <- Hl, <- Hp.
    rewrite slice_from_app_r by apply len_nonneg.
    apply slice_from_app_r0.
Qed.

Lemma apply_in_bounds_witness :
  constructible (Build 1 [x41] 2) /\
  range_end (Build 1 [x41] 2) <= len [x01; x02; x03; x04] /\
  len (apply (Build 1 [x41] 2) [x01; x02; x03; x04]) = 4.
Proof.
  assert (H1 : constructible (Build 1 [x41] 2)) by reflexivity.
  assert (H2 : is_rle (Build 1 [x41] 2) = true ->
               data (Build 1 [x41] 2) <> []) by discriminate.
  assert (H3 : range_end (Build 1 [x41] 2) <= len [x01; x02; x03; x04])
    by (vm_compute; discriminate).
  refine (conj H1 (conj H3 _)).
  exact (proj1 (apply_in_bounds _ _ H1 H2 H3)).
Defined.

(** X7.
    A record whose offset is at or beyond the end of the buffer is
    appended to the buffer: the bytes between the end of the buffer and
    the offset are not filled in. *)
Theorem apply_past_the_end (r : t) (buf : bytes) :
  constructible r -> len buf <= offset r ->
  apply r buf = buf ++ payload r.
Proof.
  intros Hc Hl.
  pose proof (proj1 (constructible_iff r) Hc) as (Ho & _).
  pose proof (applied_size_nonneg r) as Ha.
  rewrite apply_eq, set_slice_eq by (assumption || lia).
  rewrite slice_all by lia.
  rewrite slice_from_empty by lia.
  now rewrite app_nil_r.
Qed.

Lemma apply_past_the_end_witness :
  constructible (Build 9 [x41; x42] 0) /\
  len [x01; x02] <= offset (Build 9 [x41; x42] 0) /\
  apply (Build 9 [x41; x42] 0) [x01; x02] = [x01; x02; x41; x42].
Proof.
  assert (H1 : constructible (Build 9 [x41; x42] 0)) by reflexivity.
  assert (H2 : len [x01; x02] <= offset (Build 9 [x41; x42] 0))
    by (vm_compute; discriminate).
  refine (conj H1 (conj H2 _)).
  exact (apply_past_the_end _ _ H1 H2).
Defined.

(** X8.
    An RLE record without data removes the bytes of its range from the
    buffer instead of filling them: the constructor accepts such a record,
    and the buffer it is applied to never grows. *)
Theorem apply_rle_without_data (r : t) (buf : bytes) :
  constructible r -> is_rle r = true -> data r = [] ->
  apply r buf
  = slice buf 0 (offset r) ++ slice_from buf (offset r + rle_size r) /\
  len (apply r buf) <= len buf /\
  (offset r < len buf -> len (apply r buf) < len buf).
Proof.
  intros Hc Hrle Hd.
  pose proof (proj1 (constructible_iff r) Hc) as (Ho & _).
  pose proof (proj1 (is_rle_true r) Hrle) as Hn.
  assert (E : apply r buf
              = slice buf 0 (offset r)
                  ++ slice_from buf (offset r + rle_size r)).
  { unfold apply. rewrite Hrle, Hd.
    rewrite set_slice_eq by lia.
    replace (mul (slice [] 0 1) (rle_size r)) with (@nil byte);
      [reflexivity |].
    unfold mul. change (slice (@nil byte) 0 1) with (@nil byte).
    induction (Z.to_nat (rle_size r)) as [| k IH]; simpl; auto. }
  rewrite E, len_app. unfold slice_from.
  pose proof (len_nonneg buf).
  rewrite !len_slice by lia.
  repeat split; lia.
Qed.

Lemma apply_rle_without_data_witness :
  constructible (Build 1 [] 2) /\
  apply (Build 1 [] 2) [x01; x02; x03; x04] = [x01; x04].
Proof.
  assert (H : constructible (Build 1 [] 2)) by reflexivity.
  split; [exact H |].
  exact (proj1 (apply_rle_without_data (Build 1 [] 2) [x01; x02; x03; x04]
                                       H eq_refl eq_refl)).
Defined.

(** X9.
    Of the data of an RLE record only the first byte counts: the record
    applies and encodes as the record with that byte alone, and what it
    writes is [rle_size] copies of that byte. *)
Theorem rle_first_byte_only (r : t) (f : byte) (rest : bytes) :
  is_rle r = true -> data r = f :: rest ->
  (forall buf, apply r buf = apply (Build (offset r) [f] (rle_size r)) buf) /\
  to_bytes r = to_bytes (Build (offset r) [f] (rle_size r)) /\
  payload r = repeat f (Z.to_nat (rle_size r)).
Proof.
  intros Hrle Hd.
  assert (E1 : slice (f :: rest) 0 1 = [f]).
  { rewrite slice_nonneg by lia. reflexivity. }
  assert (E2 : slice [f] 0 1 = [f]) by reflexivity.
  assert (Hrle' : is_rle (Build (offset r) [f] (rle_size r)) = true)
    by exact Hrle.
  repeat split.
  - intros buf. unfold apply. rewrite Hrle, Hrle', Hd.
    cbn [offset data rle_size]. now rewrite E1, E2.
  - unfold to_bytes. rewrite Hrle, Hrle', Hd.
    cbn [offset data rle_size]. now rewrite E1, E2.
  - unfold payload. rewrite Hrle, Hd, E1. unfold mul.
    induction (Z.to_nat (rle_size r)) as [| k IH]; simpl; [reflexivity |].
    now rewrite IH.
Qed.

Lemma rle_first_byte_only_witness :
  payload (Build 0 [x41; x42] 3) = [x41; x41; x41].
Proof.
  exact (proj2 (proj2 (rle_first_byte_only (Build 0 [x41; x42] 3) x41 [x42]
                                           eq_refl eq_refl))).
Defined.

End RecordExtras.

(* ================================================================== *)
(** * More on decoding and encoding patches *)

Module CodecExtras.
Import PyFacts RecordFacts CodecFacts.
Import IPSPatch.

Lemma total_len_nonneg (rs : list IPSPatchRecord.t) :
  5 * Z.of_nat (length rs) <= total_len rs.
Proof.
  induction rs as [| r rs IH]; [reflexivity |].
  cbn [total_len fold_right length]. fold (total_len rs).
  pose proof (len_record_ge_5 r). lia.
Qed.

Lemma from_bytes_record_constructible (view : bytes) (r : IPSPatchRecord.t) :
  IPSPatchRecord.from_bytes view = Ok r -> constructible r.
Proof.
  unfold IPSPatchRecord.from_bytes; cbv zeta.
  destruct (int_from_bytes _ >? 0); apply init_constructible.
Qed.

(** When the loop returns, it has stepped over the lengths of the records
    it appended and stands on the end marker. *)
Lemma loop_returns (fuel : nat) :
  forall (data : bytes) (i : Z) (acc rs : list IPSPatchRecord.t),
    from_bytes_loop fuel data i acc = Ok rs ->
    exists rs',
      rs = acc ++ rs' /\
      slice data (i + total_len rs') (i + total_len rs' + len EOF) = EOF /\
      Forall constructible rs'.
Proof.
  induction fuel as [| fuel IH]; intros data i acc rs;
    rewrite loop_unfold;
    destruct (bytes_eqb (slice data i (i + len EOF)) EOF) eqn:E.
  - intros [= <-]. exists []. rewrite app_nil_r.
    apply bytes_eqb_eq in E. cbn [total_len fold_right].
    rewrite Z.add_0_r. auto.
  - destruct (len (slice_from data i) =? 0); discriminate.
  - intros [= <-]. exists []. rewrite app_nil_r.
    apply bytes_eqb_eq in E. cbn [total_len fold_right].
    rewrite Z.add_0_r. auto.
  - destruct (len (slice_from data i) =? 0); [discriminate |].
    destruct (IPSPatchRecord.from_bytes (slice_from data i))
      as [r | e |] eqn:Er; cbn [bind]; try discriminate.
    intros H. apply IH in H as (rs' & -> & Heof & Hall).
    exists (r :: rs'). rewrite <- app_assoc. split; [reflexivity |].
    cbn [total_len fold_right]. fold (total_len rs').
    rewrite Z.add_assoc. split; [assumption |].
    constructor; [| assumption].
    eapply from_bytes_record_constructible; eassumption.
Qed.

(** The loop raises nothing but [ValueError('Invalid patch format.')]. *)
Lemma loop_raises (fuel : nat) :
  forall (data : bytes) (i : Z) (acc : list IPSPatchRecord.t) (e : exn),
    from_bytes_loop fuel data i acc = Raise e -> e = invalid_format.
Proof.
  induction fuel as [| fuel IH]; intros data i acc e;
    rewrite loop_unfold;
    destruct (bytes_eqb (slice data i (i + len EOF)) EOF);
    try discriminate;
    (destruct (len (slice_from data i) =? 0); [now intros [= <-] |]);
    try discriminate.
  destruct (from_bytes_total (slice_from data i)) as [r Hr].
  rewrite Hr; cbn [bind]. apply IH.
Qed.

Lemma from_bytes_ok_inv (data : bytes) (p : t) :
  from_bytes data = Ok p ->
  slice data 0 (len PATCH) = PATCH /\
  slice data (len PATCH + total_len (records p))
        (len PATCH + total_len (records p) + len EOF) = EOF /\
  Forall constructible (records p).
Proof.
  unfold from_bytes; cbv zeta.
  change (0 + len PATCH) with (len PATCH).
  destruct (bytes_eqb (slice data 0 (len PATCH)) PATCH) eqn:E;
    cbn [negb]; [| discriminate].
  apply bytes_eqb_eq in E.
  destruct (from_bytes_loop (length data) data (len PATCH) [])
    as [rs | e |] eqn:El; cbn [bind]; try discriminate.
  intros [= <-]; cbn [records].
  apply loop_returns in El as (rs' & -> & Heof & Hall). auto.
Qed.

Lemma from_bytes_cases (data : bytes) :
  (exists p, from_bytes data = Ok p) \/
  from_bytes data = Raise invalid_format.
Proof.
  unfold from_bytes; cbv zeta.
  destruct (negb (bytes_eqb (slice data 0 (0 + len PATCH)) PATCH));
    [now right |].
  change (0 + len PATCH) with (len PATCH).
  pose proof (loop_terminates (length data) data (len PATCH) []) as Ht.
  destruct (from_bytes_loop (length data) data (len PATCH) [])
    as [rs | e |] eqn:El; cbn [bind].
  - left; eauto.
  - right. apply loop_raises in El. now subst e.
  - exfalso. apply Ht; [rewrite len_PATCH; lia | | reflexivity].
    rewrite len_PATCH; unfold len; lia.
Qed.

(** X12.
    A patch that [from_bytes] returns accounts for the buffer it was
    read from: the buffer starts with the header, the end marker stands
    right after the header and the lengths [__len__] of the records, all
    of this inside the buffer, and every record passes the checks of the
    constructor. *)
Theorem from_bytes_sound (data : bytes) (p : t) :
  from_bytes data = Ok p ->
  slice data 0 (len PATCH) = PATCH /\
  slice data (len PATCH + total_len (records p))
        (len PATCH + total_len (records p) + len EOF) = EOF /\
  len PATCH + total_len (records p) + len EOF <= len data /\
  Forall constructible (records p).
Proof.
  intros H. apply from_bytes_ok_inv in H as (Hm & Heof & Hall).
  repeat split; try assumption.
  pose proof (total_len_nonneg (records p)) as Hn.
  pose proof (f_equal len Heof) as Hl.
  rewrite len_PATCH in *.
  rewrite len_slice in Hl by (rewrite ?len_EOF; lia).
  rewrite len_EOF in *. lia.
Qed.

Lemma from_bytes_sound_witness :
  from_bytes (PATCH ++ [x00; x00; x01; x00; x01; x41] ++ EOF ++ [x00])
  = Ok (Build [IPSPatchRecord.Build 1 [x41] 0]) /\
  len PATCH + total_len [IPSPatchRecord.Build 1 [x41] 0] + len EOF
  <= len (PATCH ++ [x00; x00; x01; x00; x01; x41] ++ EOF ++ [x00]).
Proof.
  split; [reflexivity |].
  exact (proj1 (proj2 (proj2
    (from_bytes_sound
       (PATCH ++ [x00; x00; x01; x00; x01; x41] ++ EOF ++ [x00])
       (Build [IPSPatchRecord.Build 1 [x41] 0]) eq_refl)))).
Defined.

(** X13.
    Whatever the buffer, [from_bytes] returns a patch or raises
    [ValueError('Invalid patch format.')]: no other exception leaves
    it. *)
Theorem from_bytes_only_invalid_format (data : bytes) :
  (exists p, from_bytes data = Ok p) \/
  from_bytes data = Raise invalid_format.
Proof. apply from_bytes_cases. Qed.

(** X14.
    A buffer that does not start with the header, or in which the end
    marker occurs nowhere, is rejected. *)
Theorem from_bytes_rejects (data : bytes) :
  slice data 0 (len PATCH) <> PATCH \/
  (forall i, 0 <= i -> slice data i (i + len EOF) <> EOF) ->
  from_bytes data = Raise invalid_format.
Proof.
  intros H.
  destruct (from_bytes_cases data) as [[p Hp] | Hr]; [| assumption].
  exfalso. apply from_bytes_ok_inv in Hp as (Hm & He & _).
  destruct H as [H | H]; [contradiction |].
  apply (H (len PATCH + total_len (records p))); [| assumption].
  pose proof (total_len_nonneg (records p)). rewrite len_PATCH. lia.
Qed.

Lemma from_bytes_rejects_witness :
  slice [x50; x41; x54; x43] 0 (len PATCH) <> PATCH /\
  from_bytes [x50; x41; x54; x43] = Raise invalid_format.
Proof.
  assert (H : slice [x50; x41; x54; x43] 0 (len PATCH) <> PATCH)
    by discriminate.
  split; [exact H |].
  exact (from_bytes_rejects [x50; x41; x54; x43] (or_introl H)).
Defined.

Lemma framed_patch_decodes (p : t) (junk : bytes) :
  Forall framed (records p) ->
  exists b, to_bytes p = Ok b /\ from_bytes (b ++ junk) = Ok p.
Proof.
  destruct p as [rs]; cbn [records]; intros Hrs.
  destruct (loop_decodes_records rs Hrs PATCH)
    as (body & Henc & Hfive & Hdec).
  exists ((PATCH ++ body) ++ EOF). split.
  { unfold to_bytes; cbn [records]. now rewrite Henc. }
  unfold from_bytes; cbv zeta.
  change (0 + len PATCH) with (len PATCH).
  rewrite <- !app_assoc, slice_app_l.
  replace (bytes_eqb PATCH PATCH) with true by reflexivity.
  cbn [negb].
  assert (Hl : (length rs <= length (PATCH ++ body ++ EOF ++ junk))%nat).
  { rewrite !length_app. unfold len in Hfive. lia. }
  replace (length (PATCH ++ body ++ EOF ++ junk))
    with (length rs
          + (length (PATCH ++ body ++ EOF ++ junk) - length rs))%nat
    by lia.
  rewrite Hdec, loop_unfold.
  rewrite (app_assoc PATCH body (EOF ++ junk)), <- len_app.
  rewrite slice_app_r0 by (rewrite len_EOF; lia).
  rewrite slice_app_l.
  reflexivity.
Qed.

(** X15.
    Bytes that follow the end marker are not looked at: the encoding of
    a patch of framed records, followed by any bytes, decodes to the
    patch. *)
Theorem from_bytes_ignores_tail (p : t) (b junk : bytes) :
  Forall framed (records p) -> to_bytes p = Ok b ->
  from_bytes (b ++ junk) = Ok p.
Proof.
  intros Hrs Hb.
  destruct (framed_patch_decodes p junk Hrs) as (b' & Hb' & Hdec).
  now replace b with b' by congruence.
Qed.

Lemma from_bytes_ignores_tail_witness :
  Forall framed (records (Build [IPSPatchRecord.Build 1 [x41] 0])) /\
  from_bytes ((PATCH ++ [x00; x00; x01; x00; x01; x41] ++ EOF)
                ++ [x45; x4f; x46; x00])
  = Ok (Build [IPSPatchRecord.Build 1 [x41] 0]).
Proof.
  assert (H : Forall framed (records (Build [IPSPatchRecord.Build 1 [x41] 0])))
    by (repeat constructor; discriminate).
  split; [exact H |].
  exact (from_bytes_ignores_tail _ _ [x45; x4f; x46; x00] H eq_refl).
Defined.

Lemma to_bytes_record_ok (r : IPSPatchRecord.t) :
  constructible r ->
  exists b, IPSPatchRecord.to_bytes r = Ok b /\ 5 <= len b.
Proof.
  intros Hc. destruct (IPSPatchRecord.is_rle r) eqn:E.
  - rewrite (to_bytes_rle r Hc E). eexists; split; [reflexivity |].
    rewrite !len_app, !len_big_endian.
    pose proof (len_nonneg
                  (mul (slice (IPSPatchRecord.data r) 0 1)
                       (IPSPatchRecord.rle_size r))).
    change (len [x00; x00]) with 2. lia.
  - rewrite (to_bytes_literal r Hc E). eexists; split; [reflexivity |].
    rewrite !len_app, !len_big_endian.
    pose proof (len_nonneg (IPSPatchRecord.data r)). lia.
Qed.

Lemma to_bytes_loop_ok (rs : list IPSPatchRecord.t) :
  Forall constructible rs ->
  forall pre, exists body,
    to_bytes_loop rs pre = Ok (pre ++ body) /\
    5 * Z.of_nat (length rs) <= len body.
Proof.
  induction 1 as [| r rs Hr Hrs IH]; intros pre.
  - exists []. rewrite app_nil_r. split; reflexivity.
  - destruct (to_bytes_record_ok r Hr) as (b & Hb & H5).
    destruct (IH (pre ++ b)) as (body & Henc & Hlen).
    exists (b ++ body). cbn [to_bytes_loop]. rewrite Hb; cbn [bind].
    rewrite Henc, <- app_assoc. split; [reflexivity |].
    rewrite len_app. change (length (r :: rs)) with (S (length rs)). lia.
Qed.

(** X16.
    Encoding a patch whose records the constructor built never raises:
    the result is the header, at least five bytes for each record, and
    the end marker. *)
Theorem to_bytes_framing (p : t) :
  Forall constructible (records p) ->
  exists body,
    to_bytes p = Ok (PATCH ++ body ++ EOF) /\
    5 * Z.of_nat (length (records p)) <= len body.
Proof.
  intros H. destruct (to_bytes_loop_ok _ H PATCH) as (body & Henc & Hlen).
  exists body. unfold to_bytes. rewrite Henc; cbn [bind].
  now rewrite <- app_assoc.
Qed.

Lemma to_bytes_framing_witness :
  Forall constructible (records (Build [IPSPatchRecord.Build 1 [] 4])) /\
  exists body,
    to_bytes (Build [IPSPatchRecord.Build 1 [] 4])
    = Ok (PATCH ++ body ++ EOF).
Proof.
  assert (H : Forall constructible
                (records (Build [IPSPatchRecord.Build 1 [] 4])))
    by (repeat constructor).
  split; [exact H |].
  destruct (to_bytes_framing _ H) as (body & Hb & _).
  exists body; exact Hb.
Defined.

End CodecExtras.

(* ================================================================== *)
(** * More on diff and application *)

Module DiffExtras.
Import PyFacts RecordFacts CodecFacts DiffFacts CodecExtras.
Import IPSPatch.

(** *** The scan, whatever the lengths of the buffers *)

Lemma slice_clip {A} (l : list A) (i j : Z) :
  0 <= i -> 0 <= j -> slice l i j = slice l i (Z.min j (len l)).
Proof.
  intros Hi Hj. pose proof (len_nonneg l) as Hl.
  destruct (Z_le_gt_dec j (len l)).
  - now replace (Z.min j (len l)) with j by lia.
  - replace (Z.min j (len l)) with (len l) by lia.
    rewrite !slice_nonneg by lia.
    rewrite !firstn_all2; [reflexivity | |];
      rewrite length_skipn; unfold len in *; lia.
Qed.

Lemma nth_error_some_lt {A} (l : list A) (i : Z) (a : A) :
  0 <= i -> nth_error l (Z.to_nat i) = Some a -> i < len l.
Proof.
  intros Hi H.
  assert (Hn : nth_error l (Z.to_nat i) <> None) by congruence.
  apply nth_error_Some in Hn. unfold len; lia.
Qed.

Lemma differ_at_lt (src dest : bytes) (i : Z) :
  0 <= i -> differ_at src dest i -> i < len src /\ i < len dest.
Proof.
  intros Hi (a & b & Ha & Hb & _).
  split; eapply nth_error_some_lt; eauto.
Qed.

(** Up to the position where a scan for different bytes stops, the two
    buffers agree on the positions that both of them have. *)
Lemma find_first_ne_agree_clipped (src dest : bytes) (end_ : Z) (start : Z) :
  0 <= start <= end_ -> end_ <= len src ->
  slice src start
        (Z.min (find_first src dest start end_ operator_ne) (len dest))
  = slice dest start
          (Z.min (find_first src dest start end_ operator_ne) (len dest)).
Proof.
  intros Hs Hsrc; revert Hs. pose proof (len_nonneg dest) as Hd.
  pattern start; apply (scan_ind end_); clear start.
  - intros start Hge Hs. rewrite find_first_stop by lia.
    now rewrite !slice_backwards by lia.
  - intros start Hlt IH Hs.
    destruct (nth_error src (Z.to_nat start)) as [a |] eqn:Ea.
    2:{ apply nth_error_None in Ea. unfold len in *; lia. }
    destruct (nth_error dest (Z.to_nat start)) as [b |] eqn:Eb.
    2:{ rewrite find_first_none by (auto; lia).
        apply nth_error_None in Eb.
        rewrite !slice_backwards; [reflexivity | |]; unfold len in *; lia. }
    pose proof (nth_error_some_lt dest start b (proj1 Hs) Eb) as Hb.
    rewrite (find_first_step src dest start end_ _ a b) by (auto; lia).
    unfold operator_ne.
    destruct (Byte.eqb a b) eqn:E; cbn [negb].
    + apply Byte.byte_dec_bl in E; subst b.
      pose proof (find_first_range src dest end_ operator_ne (start + 1)).
      unfold operator_ne in *.
      rewrite (slice_cons src start _ a), (slice_cons dest start _ a)
        by (auto; lia).
      f_equal. apply IH; lia.
    + now rewrite !slice_backwards by lia.
Qed.

(** *** What the two loops emit and what applying it gives *)

Lemma init_literal_cases (i : Z) (d : bytes) :
  0 <= i -> len d <= SIZE_MAX ->
  (i <= OFFSET_MAX /\
   IPSPatchRecord.__init__ i d 0 = Ok (IPSPatchRecord.Build i d 0)) \/
  (OFFSET_MAX < i /\
   IPSPatchRecord.__init__ i d 0
   = Raise (ValueError "Offset must be a 24 bit unsigned value.")).
Proof.
  intros Hi Hd. destruct (Z_le_gt_dec i OFFSET_MAX) as [Hle | Hgt].
  - left; split; [assumption |]. apply init_ok; consts; lia.
  - right; split; [lia |]. unfold IPSPatchRecord.__init__.
    replace ((0 <=? i) && (i <=? OFFSET_MAX)) with false; [reflexivity |].
    symmetry; apply andb_false_iff; right; apply Z.leb_gt; lia.
Qed.

(** The record emitted for the run [i .. diff_end) of [dest]. *)
Lemma literal_chunk_emitted (dest : bytes) (i diff_end : Z) :
  0 <= i <= OFFSET_MAX -> i < len dest -> i < diff_end <= i + SIZE_MAX ->
  literal_chunk dest (IPSPatchRecord.Build i (slice dest i diff_end) 0).
Proof.
  intros Hi Hd He. consts.
  assert (Hl : len (slice dest i diff_end) = Z.min diff_end (len dest) - i)
    by (rewrite len_slice by lia; lia).
  unfold literal_chunk, range_end, IPSPatchRecord.applied_size,
    IPSPatchRecord.size.
  change (IPSPatchRecord.is_rle
            (IPSPatchRecord.Build i (slice dest i diff_end) 0)) with false.
  cbv iota. cbn [IPSPatchRecord.offset IPSPatchRecord.data
                 IPSPatchRecord.rle_size].
  rewrite Hl. consts.
  repeat split; try lia.
  - apply constructible_iff.
    cbn [IPSPatchRecord.offset IPSPatchRecord.data IPSPatchRecord.rle_size].
    rewrite Hl. consts. lia.
  - replace (i + (Z.min diff_end (len dest) - i))
      with (Z.min diff_end (len dest)) by lia.
    apply slice_clip; lia.
Qed.

(** What both loops maintain: the records emitted so far are literal
    chunks of [dest], and applied to [src] they give [dest] up to the
    cursor, followed by what [src] holds from there on. *)
Lemma loop1_general (fuel : nat) :
  forall (src dest : bytes) (i : Z) (acc : list IPSPatchRecord.t),
    0 <= i <= len src -> len src - i <= Z.of_nat fuel ->
    (i < len src -> differ_at src dest i) ->
    apply_loop acc src
    = slice dest 0 i ++ slice_from src (Z.min i (len dest)) ->
    Forall (literal_chunk dest) acc ->
    match from_diff_loop1 fuel src dest i i acc with
    | Ok (i', diff_start, acc') =>
        i' = len src /\ diff_start = len src /\
        apply_loop acc' src
        = slice dest 0 (len src)
            ++ slice_from src (Z.min (len src) (len dest)) /\
        Forall (literal_chunk dest) acc'
    | Raise e =>
        OFFSET_MAX + 1 < len dest /\
        e = ValueError "Offset must be a 24 bit unsigned value."
    | OutOfFuel => False
    end.
Proof.
  induction fuel as [| fuel IH];
    intros src dest i acc Hi Hf Hdiff Hinv Hall.
  - assert (i = len src) by lia; subst i.
    cbn [from_diff_loop1]; rewrite Z.ltb_irrefl. auto.
  - cbn [from_diff_loop1]. destruct (i <? len src) eqn:E.
    2:{ apply Z.ltb_ge in E. assert (i = len src) by lia; subst i. auto. }
    apply Z.ltb_lt in E. cbv zeta.
    pose proof (differ_at_lt src dest i (proj1 Hi) (Hdiff E)) as [_ Hid].
    set (diff_end :=
           find_first src dest i (Z.min (len src) (i + SIZE_MAX)) operator_eq).
    assert (Hde : i < diff_end <= Z.min (len src) (i + SIZE_MAX)).
    { split.
      - apply find_first_eq_progress; [consts; lia | left; auto].
      - apply find_first_range; consts; lia. }
    assert (Hld : len (slice dest i diff_end)
                  = Z.min diff_end (len dest) - i)
      by (rewrite len_slice by lia; lia).
    destruct (init_literal_cases i (slice dest i diff_end))
      as [[Hio E1] | [Hio E1]]; try lia; rewrite E1; cbn [bind].
    2:{ split; [lia | reflexivity]. }
    set (i' := find_first src dest diff_end (len src) operator_ne).
    assert (Hi' : diff_end <= i' <= len src)
      by (apply find_first_range; lia).
    apply IH; try lia.
    + intros Hlt. apply find_first_ne_hit; lia.
    + rewrite apply_loop_snoc, Hinv, apply_literal by lia.
      replace (Z.min i (len dest)) with i by lia.
      assert (Hl0 : len (slice dest 0 i) = i)
        by (rewrite len_slice by lia; lia).
      rewrite (slice_app_l_len _ _ i Hl0), Hld.
      set (m := Z.min diff_end (len dest)).
      rewrite (slice_from_app_r_len _ _ i (m - i) Hl0) by lia.
      rewrite slice_from_slice_from by lia.
      replace (i + (m - i)) with m by lia.
      set (m' := Z.min i' (len dest)).
      assert (Hag : slice src m m' = slice dest m m').
      { destruct (Z_le_gt_dec diff_end (len dest)).
        - replace m with diff_end by lia.
          apply find_first_ne_agree_clipped; lia.
        - now rewrite !slice_backwards by lia. }
      rewrite (slice_clip dest i diff_end) by lia. fold m.
      rewrite (slice_from_split src m m') by lia.
      rewrite Hag.
      rewrite !app_assoc, <- !slice_split by lia.
      rewrite (slice_clip dest 0 i') by lia. reflexivity.
    + apply Forall_app; split; [assumption |].
      constructor; [| constructor].
      apply literal_chunk_emitted; lia.
Qed.

Lemma loop2_general (fuel : nat) :
  forall (src dest : bytes) (i : Z) (acc : list IPSPatchRecord.t),
    0 <= i <= len dest -> len dest - i <= Z.of_nat fuel ->
    apply_loop acc src = slice dest 0 i ->
    Forall (literal_chunk dest) acc ->
    match from_diff_loop2 fuel dest i i acc with
    | Ok acc' =>
        apply_loop acc' src = dest /\ Forall (literal_chunk dest) acc'
    | Raise e =>
        OFFSET_MAX + 1 < len dest /\
        e = ValueError "Offset must be a 24 bit unsigned value."
    | OutOfFuel => False
    end.
Proof.
  induction fuel as [| fuel IH]; intros src dest i acc Hi Hf Hinv Hall.
  - assert (i = len dest) by lia; subst i.
    cbn [from_diff_loop2]; rewrite Z.ltb_irrefl.
    split; [| assumption]. rewrite Hinv. apply slice_all; lia.
  - cbn [from_diff_loop2]. destruct (i <? len dest) eqn:E.
    2:{ apply Z.ltb_ge in E. assert (i = len dest) by lia; subst i.
        split; [| assumption]. rewrite Hinv. apply slice_all; lia. }
    apply Z.ltb_lt in E. cbv zeta.
    set (diff_end := Z.min (len dest) (i + SIZE_MAX)).
    assert (Hde : i < diff_end <= i + SIZE_MAX)
      by (unfold diff_end; consts; lia).
    assert (Hld : len (slice dest i diff_end) = diff_end - i)
      by (rewrite len_slice by lia; lia).
    destruct (init_literal_cases i (slice dest i diff_end))
      as [[Hio E1] | [Hio E1]]; try lia; rewrite E1; cbn [bind].
    2:{ split; [lia | reflexivity]. }
    apply IH; try lia.
    + rewrite apply_loop_snoc, Hinv, apply_literal by lia.
      rewrite slice_all by (rewrite len_slice by lia; lia).
      rewrite slice_from_empty by (rewrite len_slice by lia; lia).
      rewrite app_nil_r, <- slice_split by lia.
      reflexivity.
    + apply Forall_app; split; [assumption |].
      constructor; [| constructor].
      apply literal_chunk_emitted; lia.
Qed.

Lemma loop2_done (fuel : nat) (dest : bytes) (i : Z)
      (acc : list IPSPatchRecord.t) :
  len dest <= i -> from_diff_loop2 fuel dest i i acc = Ok acc.
Proof.
  intros H. destruct fuel; cbn [from_diff_loop2];
    now replace (i <? len dest) with false
      by (symmetry; apply Z.ltb_ge; lia).
Qed.

(** [from_diff] as a whole. *)
Lemma from_diff_general (src dest : bytes) :
  match from_diff src dest with
  | Ok patch =>
      apply_loop (records patch) src = dest ++ slice_from src (len dest) /\
      Forall (literal_chunk dest) (records patch)
  | Raise e =>
      OFFSET_MAX + 1 < len dest /\
      e = ValueError "Offset must be a 24 bit unsigned value."
  | OutOfFuel => False
  end.
Proof.
  unfold from_diff; cbv zeta.
  set (i := find_first src dest 0 (len src) operator_ne).
  pose proof (len_nonneg src) as Hs0. pose proof (len_nonneg dest) as Hd0.
  assert (Hi : 0 <= i <= len src) by (apply find_first_range; lia).
  assert (Hf : len src - i <= Z.of_nat (length src)) by (unfold len; lia).
  assert (Hdiff : i < len src -> differ_at src dest i)
    by (intros Hlt; apply find_first_ne_hit; lia).
  assert (Hinv : apply_loop [] src
                 = slice dest 0 i ++ slice_from src (Z.min i (len dest))).
  { cbn [apply_loop fold_left].
    pose proof (find_first_ne_agree_clipped src dest (len src) 0) as Hag.
    fold i in Hag.
    rewrite (slice_clip dest 0 i), <- Hag by lia.
    rewrite <- slice_from_split by lia.
    now rewrite slice_from_nonneg by lia. }
  pose proof (loop1_general (length src) src dest i [] Hi Hf Hdiff Hinv
                            (Forall_nil _)) as L1.
  destruct (from_diff_loop1 (length src) src dest i i [])
    as [[[i1 d1] acc1] | e |]; cbn [bind]; try exact L1.
  destruct L1 as (-> & -> & Happ & Hall).
  destruct (Z_le_gt_dec (len dest) (len src)) as [Hle | Hgt].
  - rewrite loop2_done by assumption. cbn [bind records].
    split; [| assumption].
    rewrite Happ, slice_all by lia.
    now replace (Z.min (len src) (len dest)) with (len dest) by lia.
  - pose proof (loop2_general (length dest) src dest (len src) acc1) as L2.
    replace (Z.min (len src) (len dest)) with (len src) in Happ by lia.
    rewrite slice_from_empty, app_nil_r in Happ by lia.
    rewrite (slice_from_empty src (len dest)), app_nil_r by lia.
    destruct (from_diff_loop2 (length dest) dest (len src) (len src) acc1)
      as [acc2 | e |]; cbn [bind records];
      apply L2; try assumption; try lia; unfold len; lia.
Qed.

Lemma loop1_done (fuel : nat) (src dest : bytes) (i : Z)
      (acc : list IPSPatchRecord.t) :
  len src <= i -> from_diff_loop1 fuel src dest i i acc = Ok (i, i, acc).
Proof.
  intros H. destruct fuel; cbn [from_diff_loop1];
    now replace (i <? len src) with false
      by (symmetry; apply Z.ltb_ge; lia).
Qed.

(** For a target that is a prefix of the source there is nothing to
    emit. *)
Lemma from_diff_of_prefix (src dest : bytes) :
  slice src 0 (len dest) = dest -> from_diff src dest = Ok (Build []).
Proof.
  intros Hpre.
  pose proof (len_nonneg src) as Hs0. pose proof (len_nonneg dest) as Hd0.
  assert (Hle : len dest <= len src).
  { pose proof (f_equal len Hpre) as Hl.
    rewrite len_slice in Hl by lia. lia. }
  assert (Hsrc : src = dest ++ slice_from src (len dest)).
  { rewrite <- (slice_whole src (len dest)) at 1 by lia.
    now rewrite Hpre. }
  unfold from_diff; cbv zeta.
  set (i := find_first src dest 0 (len src) operator_ne).
  assert (Hi : 0 <= i <= len src) by (apply find_first_range; lia).
  assert (Ei : i = len src).
  { destruct (Z_lt_le_dec i (len src)) as [Hlt | Hge]; [| lia].
    exfalso.
    destruct (find_first_ne_hit src dest (len src) 0)
      as (a & b & Ha & Hb & Hab); try lia.
    fold i in Ha, Hb.
    assert (Hk : (Z.to_nat i < length dest)%nat)
      by (apply nth_error_Some; congruence).
    rewrite Hsrc, nth_error_app1 in Ha by assumption.
    congruence. }
  rewrite Ei, loop1_done by lia. cbn [bind].
  now rewrite loop2_done by lia.
Qed.

(** *** Properties of [from_diff] *)

(** X17.
    [from_diff] emits no record exactly when the target is a prefix of
    the source (the source itself, in particular): bytes of the source
    past the end of the target leave no trace in the patch. *)
Theorem from_diff_empty_iff (src dest : bytes) :
  from_diff src dest = Ok (Build []) <-> slice src 0 (len dest) = dest.
Proof.
  split; [| apply from_diff_of_prefix].
  intros H. pose proof (from_diff_general src dest) as G.
  rewrite H in G. destruct G as [Happ _].
  cbn [records apply_loop fold_left] in Happ.
  transitivity (slice (dest ++ slice_from src (len dest)) 0 (len dest)).
  - now rewrite <- Happ.
  - apply slice_app_l.
Qed.

(** X18.
    The diff of a buffer with itself has no record, and the empty patch
    encodes as the header followed by the end marker. *)
Theorem from_diff_identical (x : bytes) :
  from_diff x x = Ok (Build []) /\
  to_bytes (Build []) = Ok (PATCH ++ EOF).
Proof.
  split; [| reflexivity].
  apply from_diff_of_prefix, slice_all; lia.
Qed.

(** X19.
    Every record that [from_diff] emits is a literal record (never an
    RLE record) that the constructor accepts, with between 1 and 65535
    bytes of data; the data are the bytes of the target at the range of
    the record, and the range lies inside the target. *)
Theorem from_diff_chunks (src dest : bytes) (patch : t) :
  from_diff src dest = Ok patch ->
  Forall (literal_chunk dest) (records patch).
Proof.
  intros H. pose proof (from_diff_general src dest) as G.
  rewrite H in G. apply G.
Qed.

Lemma from_diff_chunks_witness :
  from_diff [x00; x00; x00; x00] [x01; x00; x02; x00; x03; x04]
  = Ok (Build [IPSPatchRecord.Build 0 [x01] 0;
               IPSPatchRecord.Build 2 [x02] 0;
               IPSPatchRecord.Build 4 [x03; x04] 0]) /\
  Forall (literal_chunk [x01; x00; x02; x00; x03; x04])
         [IPSPatchRecord.Build 0 [x01] 0;
          IPSPatchRecord.Build 2 [x02] 0;
          IPSPatchRecord.Build 4 [x03; x04] 0].
Proof.
  split; [reflexivity |].
  exact (from_diff_chunks [x00; x00; x00; x00]
                          [x01; x00; x02; x00; x03; x04] _ eq_refl).
Defined.

(** X20.
    [from_diff] returns a patch, or raises the [ValueError] of the
    constructor for an offset that does not fit 24 bits, which happens
    only for a target of more than [2^24] bytes. *)
Theorem from_diff_outcomes (src dest : bytes) :
  (exists patch, from_diff src dest = Ok patch) \/
  (from_diff src dest
   = Raise (ValueError "Offset must be a 24 bit unsigned value.") /\
   OFFSET_MAX + 1 < len dest).
Proof.
  pose proof (from_diff_general src dest) as G.
  destruct (from_diff src dest) as [patch | e |].
  - left; eauto.
  - right. destruct G as [Hl ->]. split; [reflexivity | assumption].
  - contradiction.
Qed.

(** X21.
    Whatever the lengths of the two buffers, as long as the target has at
    most [2^24] bytes: [from_diff] returns a patch, and applying it to
    the source gives the target followed by the bytes of the source past
    the end of the target.  A source longer than the target is not
    shortened. *)
Theorem from_diff_apply_general (src dest : bytes) :
  len dest <= OFFSET_MAX + 1 ->
  exists patch,
    from_diff src dest = Ok patch /\
    apply patch src false
    = (src, Some (dest ++ slice_from src (len dest))).
Proof.
  intros Hd. pose proof (from_diff_general src dest) as G.
  destruct (from_diff src dest) as [patch | e |].
  - exists patch. split; [reflexivity |].
    unfold apply. now rewrite (proj1 G).
  - lia.
  - contradiction.
Qed.

Lemma from_diff_apply_general_witness :
  len [x41] <= OFFSET_MAX + 1 /\
  exists patch,
    from_diff [x42; x43; x44] [x41] = Ok patch /\
    apply patch [x42; x43; x44] false
    = ([x42; x43; x44], Some [x41; x43; x44]).
Proof.
  assert (H : len [x41] <= OFFSET_MAX + 1) by (vm_compute; discriminate).
  split; [exact H |].
  exact (from_diff_apply_general [x42; x43; x44] [x41] H).
Defined.

Lemma chunk_framed (dest : bytes) (r : IPSPatchRecord.t) :
  len dest <= EOF_offset -> literal_chunk dest r -> framed r.
Proof.
  intros Hd (Hc & Hrle & Hdata & _ & Hend).
  assert (Hnot : IPSPatchRecord.is_rle r = false)
    by (apply is_rle_false; lia).
  unfold range_end, IPSPatchRecord.applied_size, IPSPatchRecord.size in Hend.
  rewrite Hnot in Hend.
  repeat split.
  - assumption.
  - rewrite Hnot. lia.
  - lia.
  - rewrite Hnot. discriminate.
Qed.

(** X22.
    Creating a patch and using it, through the encoded bytes: for a
    target of at most [0x454F46] bytes (no record can then start at the
    offset that reads as the end marker), the patch that [from_diff]
    returns encodes, the encoding decodes to the same patch, and applying
    the decoded patch to the source gives the target followed by the
    bytes of the source past the end of the target. *)
Theorem diff_encode_decode_apply (src dest : bytes) :
  len dest <= EOF_offset ->
  exists patch b,
    from_diff src dest = Ok patch /\
    to_bytes patch = Ok b /\
    from_bytes b = Ok patch /\
    apply patch src false
    = (src, Some (dest ++ slice_from src (len dest))).
Proof.
  intros Hd. pose proof (from_diff_general src dest) as G.
  assert (He : EOF_offset <= OFFSET_MAX + 1) by (vm_compute; discriminate).
  destruct (from_diff src dest) as [patch | e |]; [| lia | contradiction].
  destruct G as [Happ Hall].
  assert (Hfr : Forall framed (records patch))
    by (eapply Forall_impl; [| exact Hall];
        intros r; now apply chunk_framed).
  destruct (framed_patch_decodes patch [] Hfr) as (b & Hb & Hdec).
  rewrite app_nil_r in Hdec.
  exists patch, b. repeat split; try assumption.
  unfold apply. now rewrite Happ.
Qed.

Lemma diff_encode_decode_apply_witness :
  len [x41; x43; x44; x45] <= EOF_offset /\
  exists patch b,
    from_diff [x41; x42] [x41; x43; x44; x45] = Ok patch /\
    to_bytes patch = Ok b /\
    from_bytes b = Ok patch.
Proof.
  assert (H : len [x41; x43; x44; x45] <= EOF_offset)
    by (vm_compute; discriminate).
  split; [exact H |].
  destruct (diff_encode_decode_apply [x41; x42] [x41; x43; x44; x45] H)
    as (patch & b & H1 & H2 & H3 & _).
  exists patch, b. repeat split; assumption.
Defined.

End DiffExtras.

(* ================================================================== *)
(** * The commands of [patcher] *)

Module PatcherFacts.
Import PyFacts RecordFacts CodecFacts DiffFacts CodecExtras DiffExtras.
Import Os.

Lemma store_same (fs : files) (file : string) (content : bytes) :
  store fs file content file = Some content.
Proof. unfold store. now rewrite String.eqb_refl. Qed.

Lemma store_other (fs : files) (file f : string) (content : bytes) :
  f <> file -> store fs file content f = fs f.
Proof.
  intros H. unfold store.
  now replace (String.eqb f file) with false
    by (symmetry; now apply String.eqb_neq).
Qed.

Lemma read_some (fs : files) (file : string) (content : bytes) :
  fs file = Some content -> read fs file = content.
Proof. unfold read. now intros ->. Qed.

Lemma open_rb_some (sys : system) (fs : files) (path file : string)
      (content : bytes) :
  resolve sys path = Some file -> fs file = Some content ->
  readable sys file = true ->
  open_rb sys fs path = Some file.
Proof. unfold open_rb. now intros -> -> ->. Qed.

Lemma open_wb_some (sys : system) (fs : files) (path file : string) :
  resolve sys path = Some file -> writable sys file = true ->
  open_wb sys fs path = Some (file, store fs file []).
Proof. unfold open_wb. now intros -> ->. Qed.

(** What [open_wb] gives when it gives something. *)
Lemma open_wb_inv (sys : system) (fs fs' : files) (path file : string) :
  open_wb sys fs path = Some (file, fs') ->
  resolve sys path = Some file /\ fs' = store fs file [].
Proof.
  unfold open_wb. destruct (resolve sys path) as [f |]; [| discriminate].
  destruct (writable sys f); [| discriminate].
  now intros [= <- <-].
Qed.




(** *** What [apply] does to the output file *)

(** X25.
    The output file is created, or emptied, before the patch is read:
    when the input file and the patch file can be opened for reading and
    the output file, a file other than the patch file, for writing, a
    patch file that does not decode makes [apply] raise the [ValueError]
    of the decoder and leaves the output file empty. *)
Theorem apply_bad_patch (sys : system) (fs : files)
        (patch_file in_file out_file : string) (p i u : string)
        (data pb : bytes) :
  resolve sys in_file = Some i -> fs i = Some data ->
  readable sys i = true ->
  resolve sys out_file = Some u -> writable sys u = true ->
  resolve sys patch_file = Some p -> fs p = Some pb ->
  readable sys p = true ->
  u <> p ->
  (forall patch, IPSPatch.from_bytes pb <> Ok patch) ->
  patcher.apply sys patch_file in_file out_file fs
  = Raises (Propagated invalid_format) (store fs u []) /\
  store fs u [] u = Some [].
Proof.
  intros Ri Hi Rei Ru Wu Rp Hp Rep Hup Hbad. split; [| apply store_same].
  unfold patcher.apply.
  rewrite (open_rb_some sys fs in_file i data Ri Hi Rei).
  rewrite (open_wb_some sys fs out_file u Ru Wu).
  assert (Hp' : store fs u [] p = Some pb)
    by (rewrite store_other by congruence; assumption).
  unfold IPSPatchFiles.from_file.
  rewrite (open_rb_some sys _ patch_file p pb Rp Hp' Rep).
  rewrite (read_some _ _ _ Hp').
  destruct (from_bytes_cases pb) as [[patch Hok] | Hr].
  - now contradiction (Hbad patch).
  - now rewrite Hr.
Qed.

Lemma apply_bad_patch_witness :
  patcher.apply
    (Build_system (fun path => Some path) (fun _ => true) (fun _ => true))
    "p" "a" "o"
    (fun file => if String.eqb file "a" then Some [x41; x42]
                 else if String.eqb file "p" then Some [x50; x41]
                      else if String.eqb file "o" then Some [x01]
                           else None)
  = Raises (Propagated invalid_format)
           (store (fun file =>
                     if String.eqb file "a" then Some [x41; x42]
                     else if String.eqb file "p" then Some [x50; x41]
                          else if String.eqb file "o" then Some [x01]
                               else None) "o" []).
Proof.
  refine (proj1 (apply_bad_patch
                   (Build_system (fun path => Some path)
                                 (fun _ => true) (fun _ => true))
                   _ "p" "a" "o" "p" "a" "o" [x41; x42] [x50; x41]
                   eq_refl eq_refl eq_refl eq_refl eq_refl
                   eq_refl eq_refl eq_refl _ _)).
  - discriminate.
  - intros patch; discriminate.
Defined.

(** X26.
    Writing onto the patch file: when the path of the output file denotes
    the file of the patch (the same path or another one), and that file
    can be opened for writing and for reading and the input file for
    reading, [apply] empties the patch before reading it, raises the
    [ValueError] of the decoder, and leaves the file empty. *)
Theorem apply_onto_patch_file (sys : system) (fs : files)
        (patch_file in_file out_file : string) (p i : string)
        (data : bytes) :
  resolve sys in_file = Some i -> fs i = Some data ->
  readable sys i = true ->
  resolve sys patch_file = Some p -> resolve sys out_file = Some p ->
  writable sys p = true -> readable sys p = true ->
  patcher.apply sys patch_file in_file out_file fs
  = Raises (Propagated invalid_format) (store fs p []).
Proof.
  intros Ri Hi Rei Rp Ru Wp Rep. unfold patcher.apply.
  rewrite (open_rb_some sys fs in_file i data Ri Hi Rei).
  rewrite (open_wb_some sys fs out_file p Ru Wp).
  unfold IPSPatchFiles.from_file.
  rewrite (open_rb_some sys _ patch_file p [] Rp (store_same fs p []) Rep).
  now rewrite (read_some _ _ _ (store_same fs p [])).
Qed.

Lemma apply_onto_patch_file_witness :
  patcher.apply
    (Build_system
       (fun path => if String.eqb path "./a" then Some "a"%string
                    else Some path)
       (fun _ => true) (fun _ => true))
    "a" "b" "./a"
    (fun file => if String.eqb file "b" then Some [x41; x42]
                 else if String.eqb file "a" then Some (PATCH ++ EOF)
                      else None)
  = Raises (Propagated invalid_format)
           (store (fun file =>
                     if String.eqb file "b" then Some [x41; x42]
                     else if String.eqb file "a" then Some (PATCH ++ EOF)
                          else None) "a" []).
Proof.
  exact (apply_onto_patch_file
           (Build_system
              (fun path => if String.eqb path "./a" then Some "a"%string
                           else Some path)
              (fun _ => true) (fun _ => true))
           _ "a" "b" "./a" "a" "b" [x41; x42]
           eq_refl eq_refl eq_refl eq_refl eq_refl eq_refl eq_refl).
Defined.



(** *** The files a command leaves alone *)

Lemma chunk_constructible (dest : bytes) (rs : list IPSPatchRecord.t) :
  Forall (literal_chunk dest) rs -> Forall constructible rs.
Proof.
  intros H. eapply Forall_impl; [| exact H]. now intros r [Hc _].
Qed.

(** X28.
    Whatever the system, the arguments and the files, [main] returns or
    raises, and when it does no file has changed but the file that the
    path [args.out_file] denotes (none, if the path denotes no file). *)
Theorem main_touches_only_out_file (sys : system) (a : patcher.args)
        (fs : files) :
  match patcher.main sys a fs with
  | Returns _ fs' | Raises _ fs' =>
      forall file,
        resolve sys (patcher.out_file_of a) <> Some file ->
        fs' file = fs file
  | Unfinished => False
  end.
Proof.
  destruct a as [patch_file in_file out_file
                | original_file modified_file out_file];
    cbn [patcher.main patcher.out_file_of].
  - unfold patcher.apply.
    destruct (open_rb sys fs in_file) as [input |]; [| reflexivity].
    destruct (open_wb sys fs out_file) as [[output fs1] |] eqn:Ew;
      [| reflexivity].
    apply open_wb_inv in Ew as [Ru ->].
    assert (Hother : forall file,
               resolve sys out_file <> Some file ->
               store fs output [] file = fs file)
      by (intros file Hn; apply store_other; congruence).
    unfold IPSPatchFiles.from_file.
    destruct (open_rb sys (store fs output []) patch_file) as [pf |];
      [| exact Hother].
    destruct (from_bytes_cases (read (store fs output []) pf))
      as [[patch Hok] | Hr].
    + rewrite Hok. cbn [call then_].
      unfold IPSPatch.apply; cbn [snd].
      intros file Hn. rewrite store_other by congruence. now apply Hother.
    + rewrite Hr. cbn [call then_]. exact Hother.
  - unfold patcher.create.
    destruct (open_rb sys fs original_file) as [original |];
      [| reflexivity].
    destruct (open_rb sys fs modified_file) as [modified |];
      [| reflexivity].
    pose proof (from_diff_general (read fs original) (read fs modified))
      as G.
    destruct (IPSPatch.from_diff (read fs original) (read fs modified))
      as [patch | e |]; cbn [call then_]; [| reflexivity | assumption].
    destruct G as [_ Hall].
    destruct (to_bytes_loop_ok _ (chunk_constructible _ _ Hall) PATCH)
      as (body & Henc & _).
    unfold IPSPatchFiles.to_file.
    destruct (open_wb sys fs out_file) as [[output fs1] |] eqn:Ew;
      [| reflexivity].
    apply open_wb_inv in Ew as [Ru ->].
    unfold IPSPatch.to_bytes. rewrite Henc. cbn [bind call then_].
    intros file Hn. now rewrite !store_other by congruence.
Qed.

End PatcherFacts.

(* ================================================================== *)
(** * Applying records again and in another order *)

Module ApplyExtras.
Import PyFacts RecordFacts DiffFacts DiffExtras.
Import IPSPatchRecord.

Lemma slice_from_app_l {A} (a b : list A) (i : Z) :
  0 <= i <= len a -> slice_from (a ++ b) i = slice_from a i ++ b.
Proof.
  intros Hi. rewrite !slice_from_nonneg by lia. unfold len in Hi.
  rewrite skipn_app.
  now replace (Z.to_nat i - length a)%nat with 0%nat by lia.
Qed.

(** A record applied to a buffer split at its range. *)
Lemma apply_context (r : t) (pre x post : bytes) :
  constructible r -> (is_rle r = true -> data r <> []) ->
  len pre = offset r -> len x = applied_size r ->
  apply r (pre ++ x ++ post) = pre ++ payload r ++ post.
Proof.
  intros Hc Hne Hpre Hx.
  pose proof (len_nonneg pre). pose proof (len_nonneg x).
  pose proof (len_nonneg post).
  rewrite apply_no_gap by (rewrite ?len_app; assumption || lia).
  rewrite (slice_app_l_len _ _ _ Hpre).
  unfold range_end. rewrite <- Hpre, <- Hx.
  rewrite slice_from_app_r by lia.
  now rewrite slice_from_app_r0.
Qed.

(** The split of a buffer at a range that lies inside it. *)
Lemma split_at_range (buf : bytes) (o e : Z) :
  0 <= o <= e -> e <= len buf ->
  buf = slice buf 0 o ++ slice buf o e ++ slice_from buf e /\
  len (slice buf 0 o) = o /\ len (slice buf o e) = e - o.
Proof.
  intros Ho He. repeat split.
  - rewrite app_assoc, <- slice_split by lia.
    symmetry. unfold slice_from. apply slice_whole; lia.
  - rewrite len_slice by lia. lia.
  - rewrite len_slice by lia. lia.
Qed.

(** X10.
    Applying a record twice is applying it once, when the buffer reaches
    the offset of the record. *)
Theorem apply_idempotent (r : t) (buf : bytes) :
  constructible r -> (is_rle r = true -> data r <> []) ->
  offset r <= len buf ->
  apply r (apply r buf) = apply r buf.
Proof.
  intros Hc Hne Ho.
  pose proof (proj1 (constructible_iff r) Hc) as (Hoff & _).
  pose proof (len_payload r Hne) as Hp.
  rewrite (apply_no_gap r buf) by assumption.
  apply apply_context; try assumption.
  rewrite len_slice by lia. lia.
Qed.

Lemma apply_idempotent_witness :
  constructible (Build 1 [x41] 3) /\
  offset (Build 1 [x41] 3) <= len [x01; x02] /\
  apply (Build 1 [x41] 3) (apply (Build 1 [x41] 3) [x01; x02])
  = apply (Build 1 [x41] 3) [x01; x02].
Proof.
  assert (H1 : constructible (Build 1 [x41] 3)) by reflexivity.
  assert (H2 : offset (Build 1 [x41] 3) <= len [x01; x02])
    by (vm_compute; discriminate).
  refine (conj H1 (conj H2 _)).
  refine (apply_idempotent _ _ H1 _ H2). discriminate.
Defined.

(** A record whose offset lies beyond the end of the buffer is not
    idempotent: each application appends its bytes. *)
Lemma apply_twice_beyond_end :
  apply (Build 2 [x41] 0) [] = [x41] /\
  apply (Build 2 [x41] 0) (apply (Build 2 [x41] 0) []) = [x41; x41].
Proof. split; reflexivity. Qed.

(** X11.
    Two records with ranges inside the buffer, the first ending at or
    before the offset of the second, can be applied in either order. *)
Theorem apply_commute (r1 r2 : t) (buf : bytes) :
  constructible r1 -> constructible r2 ->
  (is_rle r1 = true -> data r1 <> []) ->
  (is_rle r2 = true -> data r2 <> []) ->
  range_end r1 <= offset r2 -> range_end r2 <= len buf ->
  apply r2 (apply r1 buf) = apply r1 (apply r2 buf).
Proof.
  intros Hc1 Hc2 Hn1 Hn2 H12 H2.
  pose proof (proj1 (constructible_iff r1) Hc1) as (Ho1 & _).
  pose proof (applied_size_nonneg r1) as Ha1.
  pose proof (applied_size_nonneg r2) as Ha2.
  pose proof (len_payload r1 Hn1) as Hp1.
  pose proof (len_payload r2 Hn2) as Hp2.
  unfold range_end in *.
  set (e1 := offset r1 + applied_size r1) in *.
  set (e2 := offset r2 + applied_size r2) in *.
  destruct (split_at_range buf (offset r2) e2) as (E2 & L2a & L2x);
    try (unfold e2; lia).
  set (B2 := slice buf 0 (offset r2)) in *.
  destruct (split_at_range B2 (offset r1) e1) as (E1 & L1a & L1x);
    try (unfold e1; lia).
  set (A := slice B2 0 (offset r1)) in *.
  set (X := slice B2 (offset r1) e1) in *.
  set (B := slice_from B2 e1) in *.
  set (Y := slice buf (offset r2) e2) in *.
  set (C := slice_from buf e2) in *.
  assert (LB : len B = offset r2 - e1).
  { pose proof (f_equal len E1) as H.
    rewrite !len_app in H. lia. }
  clearbody A X B Y C. subst B2. rewrite E2, E1. clear E1 E2.
  assert (S1 : apply r1 ((A ++ X ++ B) ++ Y ++ C)
               = (A ++ payload r1 ++ B) ++ Y ++ C).
  { rewrite <- !app_assoc.
    apply apply_context; try assumption. unfold e1 in *; lia. }
  assert (S2 : apply r2 ((A ++ X ++ B) ++ Y ++ C)
               = (A ++ X ++ B) ++ payload r2 ++ C).
  { apply apply_context; try assumption.
    - rewrite !len_app. unfold e1 in *. lia.
    - unfold e2 in *. lia. }
  rewrite S1, S2.
  assert (S3 : apply r2 ((A ++ payload r1 ++ B) ++ Y ++ C)
               = (A ++ payload r1 ++ B) ++ payload r2 ++ C).
  { apply apply_context; try assumption.
    - rewrite !len_app. unfold e1 in *. lia.
    - unfold e2 in *. lia. }
  assert (S4 : apply r1 (A ++ X ++ B ++ payload r2 ++ C)
               = A ++ payload r1 ++ B ++ payload r2 ++ C).
  { apply apply_context; try assumption. unfold e1 in *; lia. }
  rewrite S3. rewrite <- !app_assoc. rewrite S4. reflexivity.
Qed.

Lemma apply_commute_witness :
  apply (Build 3 [x42] 0) (apply (Build 0 [x41] 2) [x01; x02; x03; x04])
  = apply (Build 0 [x41] 2) (apply (Build 3 [x42] 0) [x01; x02; x03; x04]).
Proof.
  refine (apply_commute (Build 0 [x41] 2) (Build 3 [x42] 0)
                        [x01; x02; x03; x04] eq_refl eq_refl _ _ _ _);
    try discriminate; vm_compute; discriminate.
Defined.

(** A literal chunk of [dest] applied to a buffer that starts with
    [dest] changes nothing. *)
Lemma chunk_apply_fixed (dest tail : bytes) (r : t) :
  literal_chunk dest r -> apply r (dest ++ tail) = dest ++ tail.
Proof.
  intros (Hc & Hrle & Hlen & Hdata & Hend).
  pose proof (proj1 (constructible_iff r) Hc) as (Ho & _).
  assert (Hnot : is_rle r = false) by (apply is_rle_false; lia).
  assert (Hpay : payload r = data r) by (unfold payload; now rewrite Hnot).
  assert (Happ : applied_size r = len (data r))
    by (unfold applied_size, size; now rewrite Hnot).
  unfold range_end in *. rewrite Happ in *.
  destruct (split_at_range dest (offset r) (offset r + len (data r)))
    as (E & La & Lx); try lia.
  rewrite <- Hdata in E, Lx. clear Hdata Hend.
  set (A := slice dest 0 (offset r)) in *.
  set (C := slice_from dest (offset r + len (data r))) in *.
  clearbody A C. subst dest.
  rewrite <- !app_assoc.
  rewrite apply_context; try assumption.
  - now rewrite Hpay.
  - rewrite Hnot; discriminate.
  - now rewrite Happ.
Qed.

(** X23.
    Applying the patch of a diff to a buffer that already starts with
    the target changes nothing: a patched file can be patched again. *)
Theorem from_diff_reapply (src dest tail : bytes) (patch : IPSPatch.t) :
  IPSPatch.from_diff src dest = Ok patch ->
  IPSPatch.apply patch (dest ++ tail) false
  = (dest ++ tail, Some (dest ++ tail)).
Proof.
  intros H. pose proof (from_diff_general src dest) as G.
  rewrite H in G. destruct G as [_ Hall].
  unfold IPSPatch.apply. do 2 f_equal.
  induction Hall as [| r rs Hr Hrs IH]; [reflexivity |].
  cbn [IPSPatch.apply_loop fold_left].
  rewrite chunk_apply_fixed by assumption. exact IH.
Qed.

Lemma from_diff_reapply_witness :
  IPSPatch.from_diff [x41; x42] [x41; x43; x44]
  = Ok (IPSPatch.Build [Build 1 [x43] 0; Build 2 [x44] 0]) /\
  IPSPatch.apply (IPSPatch.Build [Build 1 [x43] 0; Build 2 [x44] 0])
                 ([x41; x43; x44] ++ [x45]) false
  = ([x41; x43; x44] ++ [x45], Some ([x41; x43; x44] ++ [x45])).
Proof.
  split; [reflexivity |].
  exact (from_diff_reapply [x41; x42] [x41; x43; x44] [x45] _ eq_refl).
Defined.

End ApplyExtras.
